(** * The git-commit chaincode over a key-value world state

    A shallow embedding of the [SmartContract] of the chaincode
    (package [chaincode]): commit records, per-repository version
    counters and push transactions stored in one shared keyspace. *)

From Stdlib Require Import ZArith Ascii String Sorting.Permutation.
From stdpp Require Import base tactics option list sorting gmap strings.

Local Open Scope string_scope.
Local Open Scope Z_scope.

(** ** Go values *)

(** Go's [int] on the 64-bit targets a peer runs on: a [Z] kept in
    the signed 64-bit range by [wrap64]. *)
Definition min_int : Z := - 2 ^ 63.
Definition max_int : Z := 2 ^ 63 - 1.

Definition wrap64 (z : Z) : Z := (z + 2 ^ 63) mod 2 ^ 64 - 2 ^ 63.

Definition is_int (z : Z) : bool := (min_int <=? z) && (z <=? max_int).

(** [x++] on an [int]. *)
Definition int_incr (z : Z) : Z := wrap64 (z + 1).

(** The zero value of a Go string. *)
Definition nil_string : string := EmptyString.

(** ** JSON documents

    The text produced by [json.Marshal] is abstracted to the object
    it denotes: the members in the order they are written. The
    chaincode only ever stores objects whose members are strings and
    integers. *)
Inductive jval : Type :=
  | JStr (s : string)
  | JNum (z : Z).

Definition value : Type := list (string * jval).

(** ASCII case folding, as [json.Unmarshal] uses to match an object
    key with a struct field when no field has exactly that name. *)
Definition lower_ascii (c : ascii) : ascii :=
  let n := nat_of_ascii c in
  if ((65 <=? n) && (n <=? 90))%nat then ascii_of_nat (n + 32) else c.

Fixpoint lower (s : string) : string :=
  match s with
  | EmptyString => EmptyString
  | String c s' => String (lower_ascii c) (lower s')
  end.

Definition equal_fold (a b : string) : bool := String.eqb (lower a) (lower b).

Fixpoint index_where (p : string -> bool) (names : list string) (i : nat) : option nat :=
  match names with
  | [] => None
  | n :: names' => if p n then Some i else index_where p names' (S i)
  end.

(** The struct field an object key selects: the field whose JSON name
    is the key, else the first one equal to it up to case. *)
Definition field_index (names : list string) (key : string) : option nat :=
  match index_where (String.eqb key) names 0 with
  | Some i => Some i
  | None => index_where (equal_fold key) names 0
  end.

Definition as_string (v : jval) : option string :=
  match v with JStr s => Some s | JNum _ => None end.

Definition as_int (v : jval) : option Z :=
  match v with JNum z => if is_int z then Some z else None | JStr _ => None end.

(** ** The three record types *)

Record GitCommit : Type := mkGitCommit {
  CommitHash : string;
  Repository : string;
  CommitMessage : string;
  Author : string;
  VersionNumber : Z;
  Timestamp : string
}.

Record PushTransaction : Type := mkPushTransaction {
  pRepository : string;
  pRemoteURL : string;
  pTimestamp : string;
  pVersion : Z;
  pCommitHash : string
}.

Record RepositoryVersion : Type := mkRepositoryVersion {
  rRepository : string;
  rVersionNumber : Z
}.

Definition GitCommit_names : list string :=
  ["CommitHash"; "Repository"; "CommitMessage"; "Author"; "VersionNumber"; "Timestamp"].

Definition PushTransaction_names : list string :=
  ["repository"; "remoteURL"; "timestamp"; "version"; "CommitHash"].

Definition RepositoryVersion_names : list string :=
  ["Repository"; "VersionNumber"].

Definition marshalGitCommit (c : GitCommit) : value :=
  [("CommitHash", JStr (CommitHash c));
   ("Repository", JStr (Repository c));
   ("CommitMessage", JStr (CommitMessage c));
   ("Author", JStr (Author c));
   ("VersionNumber", JNum (VersionNumber c));
   ("Timestamp", JStr (Timestamp c))].

Definition marshalPushTransaction (p : PushTransaction) : value :=
  [("repository", JStr (pRepository p));
   ("remoteURL", JStr (pRemoteURL p));
   ("timestamp", JStr (pTimestamp p));
   ("version", JNum (pVersion p));
   ("CommitHash", JStr (pCommitHash p))].

Definition marshalRepositoryVersion (r : RepositoryVersion) : value :=
  [("Repository", JStr (rRepository r));
   ("VersionNumber", JNum (rVersionNumber r))].

(** One member of an object assigned to a [GitCommit]: unknown keys
    are skipped, a value of the wrong type is a decoding error. *)
Definition setGitCommit (c : GitCommit) (m : string * jval) : option GitCommit :=
  match field_index GitCommit_names m.1 with
  | Some 0%nat => s ← as_string m.2;
      Some (mkGitCommit s (Repository c) (CommitMessage c) (Author c) (VersionNumber c) (Timestamp c))
  | Some 1%nat => s ← as_string m.2;
      Some (mkGitCommit (CommitHash c) s (CommitMessage c) (Author c) (VersionNumber c) (Timestamp c))
  | Some 2%nat => s ← as_string m.2;
      Some (mkGitCommit (CommitHash c) (Repository c) s (Author c) (VersionNumber c) (Timestamp c))
  | Some 3%nat => s ← as_string m.2;
      Some (mkGitCommit (CommitHash c) (Repository c) (CommitMessage c) s (VersionNumber c) (Timestamp c))
  | Some 4%nat => z ← as_int m.2;
      Some (mkGitCommit (CommitHash c) (Repository c) (CommitMessage c) (Author c) z (Timestamp c))
  | Some 5%nat => s ← as_string m.2;
      Some (mkGitCommit (CommitHash c) (Repository c) (CommitMessage c) (Author c) (VersionNumber c) s)
  | _ => Some c
  end.

Definition setPushTransaction (p : PushTransaction) (m : string * jval) : option PushTransaction :=
  match field_index PushTransaction_names m.1 with
  | Some 0%nat => s ← as_string m.2;
      Some (mkPushTransaction s (pRemoteURL p) (pTimestamp p) (pVersion p) (pCommitHash p))
  | Some 1%nat => s ← as_string m.2;
      Some (mkPushTransaction (pRepository p) s (pTimestamp p) (pVersion p) (pCommitHash p))
  | Some 2%nat => s ← as_string m.2;
      Some (mkPushTransaction (pRepository p) (pRemoteURL p) s (pVersion p) (pCommitHash p))
  | Some 3%nat => z ← as_int m.2;
      Some (mkPushTransaction (pRepository p) (pRemoteURL p) (pTimestamp p) z (pCommitHash p))
  | Some 4%nat => s ← as_string m.2;
      Some (mkPushTransaction (pRepository p) (pRemoteURL p) (pTimestamp p) (pVersion p) s)
  | _ => Some p
  end.

Definition setRepositoryVersion (r : RepositoryVersion) (m : string * jval) : option RepositoryVersion :=
  match field_index RepositoryVersion_names m.1 with
  | Some 0%nat => s ← as_string m.2; Some (mkRepositoryVersion s (rVersionNumber r))
  | Some 1%nat => z ← as_int m.2; Some (mkRepositoryVersion (rRepository r) z)
  | _ => Some r
  end.

(** [json.Unmarshal] into a zero-valued struct: the members are
    assigned in order, a later duplicate overriding an earlier one. *)
Fixpoint unmarshalWith {A : Type} (set : A -> string * jval -> option A)
    (acc : A) (v : value) : option A :=
  match v with
  | [] => Some acc
  | m :: v' => match set acc m with
               | Some acc' => unmarshalWith set acc' v'
               | None => None
               end
  end.

Definition unmarshalGitCommit (v : value) : option GitCommit :=
  unmarshalWith setGitCommit
    (mkGitCommit nil_string nil_string nil_string nil_string 0 nil_string) v.

Definition unmarshalPushTransaction (v : value) : option PushTransaction :=
  unmarshalWith setPushTransaction
    (mkPushTransaction nil_string nil_string nil_string 0 nil_string) v.

Definition unmarshalRepositoryVersion (v : value) : option RepositoryVersion :=
  unmarshalWith setRepositoryVersion (mkRepositoryVersion nil_string 0) v.

(** ** The world state

    The stub of the transaction context is the key-value store of its
    collaborator contract: [GetState] returns the value last put at a
    key or nothing, [PutState] overwrites, and a read observes the
    writes issued earlier by the same call. Keys are ordered as byte
    strings. Failures of the store itself are not modelled. *)
Abbreviation store := (gmap string value).

(** The failures the contract reports, by kind. [NotFound] stands for
    both "the commit %s does not exist" and "commit not found: %s";
    [EncodingFailure] for any error of [json.Unmarshal]. *)
Inductive error : Type :=
  | AlreadyExists (commitHash : string)
  | NotFound (commitHash : string)
  | NoVersion (repository : string)
  | RepositoryMismatch (expected got : string)
  | EncodingFailure.

Global Instance error_eq_dec : EqDecision error.
Proof. solve_decision. Defined.

(** A call runs against a store and hands back its outcome together
    with the store as it stands when the call returns: after a failure
    that is the store with the writes issued so far. *)
Definition M (A : Type) : Type := store -> (error + A) * store.

Definition ret {A : Type} (a : A) : M A := fun s => (inr a, s).

Definition fail {A : Type} (e : error) : M A := fun s => (inl e, s).

Definition bind {A B : Type} (m : M A) (k : A -> M B) : M B :=
  fun s => match m s with
           | (inl e, s') => (inl e, s')
           | (inr a, s') => k a s'
           end.

Definition catch {A : Type} (m : M A) (h : error -> M A) : M A :=
  fun s => match m s with
           | (inl e, s') => h e s'
           | (inr a, s') => (inr a, s')
           end.

Declare Scope chain_scope.
Delimit Scope chain_scope with chain.
Notation "x <- c1 ; c2" := (bind c1 (fun x => c2))
  (at level 20, c1 at level 100, c2 at level 200, only parsing) : chain_scope.
Notation "c1 ;; c2" := (bind c1 (fun _ => c2))
  (at level 100, c2 at level 200, only parsing, right associativity) : chain_scope.
Local Open Scope chain_scope.

Definition decode {A : Type} (o : option A) : M A :=
  match o with
  | Some a => ret a
  | None => fail EncodingFailure
  end.

Definition GetState (key : string) : M (option value) :=
  fun s => (inr (s !! key), s).

Definition PutState (key : string) (v : value) : M unit :=
  fun s => (inr tt, <[key := v]> s).

(** The half-open key interval of a range scan; an empty bound is no
    bound. *)
Definition in_range (startKey endKey key : string) : bool :=
  (match startKey with EmptyString => true | _ => String.leb startKey key end)
  && (match endKey with EmptyString => true | _ => String.ltb key endKey end).

Definition key_le (p q : string * value) : Prop := String.leb p.1 q.1 = true.

Global Instance key_le_dec : RelDecision key_le.
Proof. intros p q. unfold key_le. apply _. Defined.

(** The entries of the interval in ascending key order. *)
Definition range_entries (startKey endKey : string) (s : store) : list (string * value) :=
  merge_sort key_le
    (map_to_list (filter (fun kv : string * value => in_range startKey endKey kv.1) s)).

(** [GetStateByRange] drained by the [HasNext]/[Next] loop. *)
Definition GetStateByRange (startKey endKey : string) : M (list (string * value)) :=
  fun s => (inr (range_entries startKey endKey s), s).

Fixpoint forEach {A : Type} (f : A -> M unit) (l : list A) : M unit :=
  match l with
  | [] => ret tt
  | a :: l' => f a ;; forEach f l'
  end.

(** ** The contract *)

Definition version_key (repository : string) : string := "VERSION_" +:+ repository.

Definition push_key (repository timestamp : string) : string :=
  "PUSH_" +:+ repository +:+ "_" +:+ timestamp.

Definition InitLedger : M unit :=
  let gitCommits :=
    [mkGitCommit "hash1" "repo1" "Initial commit" "Alice" 1 "2023-06-01T12:00:00Z";
     mkGitCommit "hash2" "repo2" "Added feature" "Bob" 1 "2023-06-02T12:00:00Z"] in
  let repoVersions :=
    [mkRepositoryVersion "repo1" 1;
     mkRepositoryVersion "repo2" 1;
     mkRepositoryVersion "git-test" 1] in
  forEach (fun gitCommit => PutState (CommitHash gitCommit) (marshalGitCommit gitCommit))
         gitCommits ;;
  forEach (fun repoVersion =>
             PutState (version_key (rRepository repoVersion))
                      (marshalRepositoryVersion repoVersion))
          repoVersions.

Definition GitCommitExists (commitHash : string) : M bool :=
  gitCommitJSON <- GetState commitHash ;
  ret (match gitCommitJSON with Some _ => true | None => false end).

Definition GetRepositoryVersion (repository : string) : M RepositoryVersion :=
  repoVersionJSON <- GetState (version_key repository) ;
  match repoVersionJSON with
  | None => fail (NoVersion repository)
  | Some j => decode (unmarshalRepositoryVersion j)
  end.

Definition SetRepositoryVersion (repoVersion : RepositoryVersion) : M unit :=
  PutState (version_key (rRepository repoVersion)) (marshalRepositoryVersion repoVersion).

Definition IncrementVersionNumber (repository : string) : M unit :=
  repoVersion <- GetRepositoryVersion repository ;
  SetRepositoryVersion
    (mkRepositoryVersion (rRepository repoVersion) (int_incr (rVersionNumber repoVersion))).

(** [now] is the reading of [time.Now().UTC()] in RFC 3339 form. *)
Definition CreateGitCommit (now commitHash repository commitMessage author : string) : M unit :=
  exists_ <- GitCommitExists commitHash ;
  if (exists_ : bool) then fail (AlreadyExists commitHash)
  else
    repoVersion <- catch (GetRepositoryVersion repository)
      (fun err =>
         if decide (err = NoVersion repository) then
           let repoVersion := mkRepositoryVersion repository 1 in
           SetRepositoryVersion repoVersion ;;
           ret repoVersion
         else fail err) ;
    PutState commitHash
      (marshalGitCommit
         (mkGitCommit commitHash repository commitMessage author
                      (rVersionNumber repoVersion) now)).

Definition ReadGitCommit (commitHash : string) : M GitCommit :=
  gitCommitJSON <- GetState commitHash ;
  match gitCommitJSON with
  | None => fail (NotFound commitHash)
  | Some j => decode (unmarshalGitCommit j)
  end.

Definition build_message (remoteURL : string) : string :=
  "All testing is done and audit processes approved, move to build stage. Git clone link: "
  +:+ remoteURL.

Definition HandleGitPush (now repository remoteURL commitHash : string) : M string :=
  IncrementVersionNumber repository ;;
  commitJSON <- GetState commitHash ;
  match commitJSON with
  | None => fail (NotFound commitHash)
  | Some j =>
      lastCommit <- decode (unmarshalGitCommit j) ;
      if decide (Repository lastCommit = repository) then
        PutState commitHash (marshalGitCommit lastCommit) ;;
        repoVersion <- GetRepositoryVersion repository ;
        let pushTx :=
          mkPushTransaction repository remoteURL now (rVersionNumber repoVersion) commitHash in
        PutState (push_key repository (pTimestamp pushTx)) (marshalPushTransaction pushTx) ;;
        ret (build_message remoteURL)
      else fail (RepositoryMismatch repository (Repository lastCommit))
  end.

Definition GetAllPushTransactions : M (list PushTransaction) :=
  results <- GetStateByRange "PUSH_" "PUSH_~" ;
  decode (mapM (fun kv : string * value => unmarshalPushTransaction kv.2) results).

Definition GetEvaluateTransactions : list string := ["ReadGitCommit"].

(** [sort.Slice] promises an ordering by [less] and nothing about
    elements that compare equal, so [GetAllGitCommits] takes the sort
    as a parameter. *)
Definition less_timestamp (a b : GitCommit) : bool := String.ltb (Timestamp a) (Timestamp b).

Definition GetAllGitCommits
    (sort_slice : (GitCommit -> GitCommit -> bool) -> list GitCommit -> list GitCommit)
    : M (list GitCommit) :=
  results <- GetStateByRange EmptyString EmptyString ;
  gitCommits <- decode (mapM (fun kv : string * value => unmarshalGitCommit kv.2) results) ;
  ret (sort_slice less_timestamp gitCommits).

(** ** Notions used by the statements *)

(** [n] calls of the same operation in a row. *)
Fixpoint repeatM (n : nat) (m : M unit) : M unit :=
  match n with
  | O => ret tt
  | S n' => m ;; repeatM n' m
  end.

(** The keys of push transactions. *)
Definition is_push_key (key : string) : bool := String.prefix "PUSH_" key.

(** Version records are well formed when the record at the version
    key of [r] decodes and names [r]. *)
Definition versions_wf (s : store) : Prop :=
  forall r j, s !! version_key r = Some j ->
    exists rv, unmarshalRepositoryVersion j = Some rv /\ rRepository rv = r.

Definition versions_below_max (s : store) : Prop :=
  forall r j rv, s !! version_key r = Some j ->
    unmarshalRepositoryVersion j = Some rv -> rVersionNumber rv < max_int.

(** The invariant of version records as a relation between the store
    before and after an operation: a record that exists stays and its
    number does not decrease, a record that appears starts at 1. That
    a repository has at most one record is the map itself: one key per
    repository, one value per key. *)
Definition version_step (s s' : store) : Prop :=
  forall r,
    match s !! version_key r with
    | Some j =>
        forall rv, unmarshalRepositoryVersion j = Some rv ->
          exists j' rv', s' !! version_key r = Some j'
                         /\ unmarshalRepositoryVersion j' = Some rv'
                         /\ rVersionNumber rv <= rVersionNumber rv'
    | None =>
        forall j', s' !! version_key r = Some j' ->
          exists rv', unmarshalRepositoryVersion j' = Some rv' /\ rVersionNumber rv' = 1
    end.

(** What an operation may do to the version record of [r]: nothing,
    one increment, or the seed at 1. *)
Definition version_change (s s' : store) (r : string) : Prop :=
  s' !! version_key r = s !! version_key r
  \/ (exists j rv j',
        s !! version_key r = Some j /\ unmarshalRepositoryVersion j = Some rv
        /\ s' !! version_key r = Some j'
        /\ unmarshalRepositoryVersion j'
           = Some (mkRepositoryVersion r (int_incr (rVersionNumber rv))))
  \/ (s !! version_key r = None
      /\ s' !! version_key r
         = Some (marshalRepositoryVersion (mkRepositoryVersion r 1))).

(** The contract of [sort.Slice] for the comparison by timestamp: the
    result is a rearrangement of the slice in which no element is
    less than the one before it. Nothing is promised on the order of
    elements that compare equal. *)
Definition not_after (a b : GitCommit) : Prop := less_timestamp b a = false.

Definition sort_contract
    (sort_slice : (GitCommit -> GitCommit -> bool) -> list GitCommit -> list GitCommit)
    : Prop :=
  forall l, sort_slice less_timestamp l ≡ₚ l /\ Sorted not_after (sort_slice less_timestamp l).

(** Two sorts by insertion: the first places an element before the
    ones it is not greater than, the second behind the ones it is not
    less than. *)
Fixpoint insert_before {A : Type} (less : A -> A -> bool) (a : A) (l : list A) : list A :=
  match l with
  | [] => [a]
  | b :: l' => if less b a then b :: insert_before less a l' else a :: b :: l'
  end.

Definition sort_ties_first {A : Type} (less : A -> A -> bool) (l : list A) : list A :=
  foldr (insert_before less) [] l.



(** The documents the contract itself puts in the store: one of the
    three records, with a number that is a Go [int]. *)
Definition contract_value (j : value) : Prop :=
  (exists c, j = marshalGitCommit c /\ is_int (VersionNumber c) = true)
  \/ (exists rv, j = marshalRepositoryVersion rv /\ is_int (rVersionNumber rv) = true)
  \/ (exists p, j = marshalPushTransaction p /\ is_int (pVersion p) = true).

Definition contract_store (s : store) : Prop :=
  forall k j, s !! k = Some j -> contract_value j.


(** A store in which the key of repository [a] holds a commit of
    repository [b]. *)
Definition crossed_ledger : store :=
  (CreateGitCommit "2023-06-03T09:00:00Z" (version_key "a") "b" "m" "Alice" ∅).2.

(** The gateway client declares [PushTransaction] with the tag
    [commitHash] where the chaincode has [CommitHash]; the other tags
    are the same. *)
Definition ClientPushTransaction_names : list string :=
  ["repository"; "remoteURL"; "timestamp"; "version"; "commitHash"].

Definition clientSetPushTransaction (p : PushTransaction) (m : string * jval)
    : option PushTransaction :=
  match field_index ClientPushTransaction_names m.1 with
  | Some 0%nat => s ← as_string m.2;
      Some (mkPushTransaction s (pRemoteURL p) (pTimestamp p) (pVersion p) (pCommitHash p))
  | Some 1%nat => s ← as_string m.2;
      Some (mkPushTransaction (pRepository p) s (pTimestamp p) (pVersion p) (pCommitHash p))
  | Some 2%nat => s ← as_string m.2;
      Some (mkPushTransaction (pRepository p) (pRemoteURL p) s (pVersion p) (pCommitHash p))
  | Some 3%nat => z ← as_int m.2;
      Some (mkPushTransaction (pRepository p) (pRemoteURL p) (pTimestamp p) z (pCommitHash p))
  | Some 4%nat => s ← as_string m.2;
      Some (mkPushTransaction (pRepository p) (pRemoteURL p) (pTimestamp p) (pVersion p) s)
  | _ => Some p
  end.

Definition clientUnmarshalPushTransaction (v : value) : option PushTransaction :=
  unmarshalWith clientSetPushTransaction
    (mkPushTransaction nil_string nil_string nil_string 0 nil_string) v.

Definition clientMarshalPushTransaction (p : PushTransaction) : value :=
  [("repository", JStr (pRepository p));
   ("remoteURL", JStr (pRemoteURL p));
   ("timestamp", JStr (pTimestamp p));
   ("version", JNum (pVersion p));
   ("commitHash", JStr (pCommitHash p))].

(** A store with one version record, at 5. *)
Definition ledger5 : store := (SetRepositoryVersion (mkRepositoryVersion "repo1" 5) ∅).2.

(** The ledger after [InitLedger] on an empty world state. *)
Definition ledger0 : store := (InitLedger ∅).2.

(** * Properties *)

(** ** Integers *)

Lemma is_int_spec z : is_int z = true <-> min_int <= z <= max_int.
Proof. unfold is_int. rewrite andb_true_iff, !Z.leb_le. tauto. Qed.

Lemma wrap64_is_int z : is_int (wrap64 z) = true.
Proof.
  apply is_int_spec. unfold wrap64, min_int, max_int.
  pose proof (Z.mod_pos_bound (z + 2 ^ 63) (2 ^ 64) ltac:(lia)). lia.
Qed.

Lemma wrap64_id z : min_int <= z <= max_int -> wrap64 z = z.
Proof.
  unfold wrap64, min_int, max_int. intros Hz.
  rewrite Z.mod_small by lia. lia.
Qed.

Lemma int_incr_is_int z : is_int (int_incr z) = true.
Proof. apply wrap64_is_int. Qed.

Lemma int_incr_succ z : min_int <= z < max_int -> int_incr z = z + 1.
Proof. intros Hz. unfold int_incr. apply wrap64_id. lia. Qed.

(** ** Keys *)

Lemma version_key_inj r r' : version_key r = version_key r' -> r = r'.
Proof. unfold version_key. cbn. intros H. by simplify_eq. Qed.

Lemma version_key_not_push r r' t : version_key r <> push_key r' t.
Proof. unfold version_key, push_key. cbn. discriminate. Qed.

(** ** Encoding and decoding *)

Lemma unmarshalWith_invariant {A : Type} (P : A -> Prop)
    (set : A -> string * jval -> option A) :
  (forall a m a', P a -> set a m = Some a' -> P a') ->
  forall v a r, P a -> unmarshalWith set a v = Some r -> P r.
Proof.
  intros Hstep v. induction v as [|m v IH]; intros a r Ha Hr; cbn in Hr.
  - by simplify_eq.
  - destruct (set a m) as [a'|] eqn:Hset; [|done]. eauto.
Qed.

Lemma as_int_is_int v z : as_int v = Some z -> is_int z = true.
Proof.
  destruct v as [s|z']; cbn; [done|].
  destruct (is_int z') eqn:E; intros; by simplify_eq.
Qed.

Lemma unmarshalRepositoryVersion_is_int j rv :
  unmarshalRepositoryVersion j = Some rv -> is_int (rVersionNumber rv) = true.
Proof.
  apply (unmarshalWith_invariant (fun r => is_int (rVersionNumber r) = true)); [|done].
  intros a m a' Ha. unfold setRepositoryVersion.
  destruct (field_index _ _) as [[|[|i]]|]; intros Hs; simplify_option_eq;
    eauto using as_int_is_int.
Qed.

Lemma unmarshalGitCommit_is_int j c :
  unmarshalGitCommit j = Some c -> is_int (VersionNumber c) = true.
Proof.
  apply (unmarshalWith_invariant (fun c => is_int (VersionNumber c) = true)); [|done].
  intros a m a' Ha. unfold setGitCommit.
  destruct (field_index _ _) as [[|[|[|[|[|[|i]]]]]]|]; intros Hs; simplify_option_eq;
    eauto using as_int_is_int.
Qed.

Lemma unmarshal_marshal_RepositoryVersion rv :
  is_int (rVersionNumber rv) = true ->
  unmarshalRepositoryVersion (marshalRepositoryVersion rv) = Some rv.
Proof.
  intros Hi. destruct rv as [r v]. cbn in *.
  unfold unmarshalRepositoryVersion, marshalRepositoryVersion. cbn.
  by rewrite Hi.
Qed.



(** A commit record read back as a version record: the two structs
    share the member names [Repository] and [VersionNumber]. *)
Lemma unmarshalRepositoryVersion_GitCommit c :
  is_int (VersionNumber c) = true ->
  unmarshalRepositoryVersion (marshalGitCommit c)
  = Some (mkRepositoryVersion (Repository c) (VersionNumber c)).
Proof.
  intros Hi. destruct c. cbn in *.
  unfold unmarshalRepositoryVersion, marshalGitCommit. cbn.
  by rewrite Hi.
Qed.

(** A version record read back as a commit: the other fields keep
    their zero values. *)
Lemma unmarshalGitCommit_RepositoryVersion rv :
  is_int (rVersionNumber rv) = true ->
  unmarshalGitCommit (marshalRepositoryVersion rv)
  = Some (mkGitCommit nil_string (rRepository rv) nil_string nil_string
                      (rVersionNumber rv) nil_string).
Proof.
  intros Hi. destruct rv. cbn in *.
  unfold unmarshalGitCommit, marshalRepositoryVersion. cbn.
  by rewrite Hi.
Qed.

(** ** The operations, call by call *)

Lemma GetRepositoryVersion_run repository s :
  GetRepositoryVersion repository s
  = (match s !! version_key repository with
     | None => inl (NoVersion repository)
     | Some j => match unmarshalRepositoryVersion j with
                 | Some rv => inr rv
                 | None => inl EncodingFailure
                 end
     end, s).
Proof.
  unfold GetRepositoryVersion, bind, GetState, decode, ret, fail.
  destruct (s !! version_key repository) as [j|]; [|done].
  by destruct (unmarshalRepositoryVersion j).
Qed.

Lemma ReadGitCommit_run commitHash s :
  ReadGitCommit commitHash s
  = (match s !! commitHash with
     | None => inl (NotFound commitHash)
     | Some j => match unmarshalGitCommit j with
                 | Some c => inr c
                 | None => inl EncodingFailure
                 end
     end, s).
Proof.
  unfold ReadGitCommit, bind, GetState, decode, ret, fail.
  destruct (s !! commitHash) as [j|]; [|done].
  by destruct (unmarshalGitCommit j).
Qed.

Lemma GitCommitExists_run commitHash s :
  GitCommitExists commitHash s
  = (inr (match s !! commitHash with Some _ => true | None => false end), s).
Proof. done. Qed.

Lemma IncrementVersionNumber_run repository s :
  IncrementVersionNumber repository s
  = match s !! version_key repository with
    | None => (inl (NoVersion repository), s)
    | Some j =>
        match unmarshalRepositoryVersion j with
        | Some rv =>
            (inr tt,
             <[version_key (rRepository rv) :=
                 marshalRepositoryVersion
                   (mkRepositoryVersion (rRepository rv) (int_incr (rVersionNumber rv)))]> s)
        | None => (inl EncodingFailure, s)
        end
    end.
Proof.
  unfold IncrementVersionNumber, bind. rewrite GetRepositoryVersion_run.
  destruct (s !! version_key repository) as [j|]; [|done].
  by destruct (unmarshalRepositoryVersion j).
Qed.

Lemma CreateGitCommit_run now commitHash repository commitMessage author s :
  CreateGitCommit now commitHash repository commitMessage author s
  = match s !! commitHash with
    | Some _ => (inl (AlreadyExists commitHash), s)
    | None =>
        match s !! version_key repository with
        | None =>
            (inr tt,
             <[commitHash :=
                 marshalGitCommit
                   (mkGitCommit commitHash repository commitMessage author 1 now)]>
               (<[version_key repository :=
                    marshalRepositoryVersion (mkRepositoryVersion repository 1)]> s))
        | Some j =>
            match unmarshalRepositoryVersion j with
            | Some rv =>
                (inr tt,
                 <[commitHash :=
                     marshalGitCommit
                       (mkGitCommit commitHash repository commitMessage author
                                    (rVersionNumber rv) now)]> s)
            | None => (inl EncodingFailure, s)
            end
        end
    end.
Proof.
  unfold CreateGitCommit, bind, catch. rewrite GitCommitExists_run.
  destruct (s !! commitHash); [done|].
  rewrite GetRepositoryVersion_run.
  destruct (s !! version_key repository) as [j|].
  - destruct (unmarshalRepositoryVersion j); [done|].
    by case_decide.
  - by case_decide.
Qed.

Lemma HandleGitPush_run now repository remoteURL commitHash s :
  HandleGitPush now repository remoteURL commitHash s
  = match IncrementVersionNumber repository s with
    | (inl e, s1) => (inl e, s1)
    | (inr _, s1) =>
        match s1 !! commitHash with
        | None => (inl (NotFound commitHash), s1)
        | Some j =>
            match unmarshalGitCommit j with
            | None => (inl EncodingFailure, s1)
            | Some lastCommit =>
                if decide (Repository lastCommit = repository) then
                  let s2 := <[commitHash := marshalGitCommit lastCommit]> s1 in
                  match s2 !! version_key repository with
                  | None => (inl (NoVersion repository), s2)
                  | Some jv =>
                      match unmarshalRepositoryVersion jv with
                      | None => (inl EncodingFailure, s2)
                      | Some rv =>
                          (inr (build_message remoteURL),
                           <[push_key repository now :=
                               marshalPushTransaction
                                 (mkPushTransaction repository remoteURL now
                                                    (rVersionNumber rv) commitHash)]> s2)
                      end
                  end
                else (inl (RepositoryMismatch repository (Repository lastCommit)), s1)
            end
        end
    end.
Proof.
  unfold HandleGitPush, bind.
  destruct (IncrementVersionNumber repository s) as [[e|[]] s1]; [done|].
  unfold GetState at 1.
  destruct (s1 !! commitHash) as [j|]; [|done].
  unfold decode at 1.
  destruct (unmarshalGitCommit j) as [lastCommit|]; [|done].
  unfold ret at 1. case_decide; [|done].
  unfold PutState at 1. rewrite GetRepositoryVersion_run.
  destruct (_ !! version_key repository) as [jv|]; [|done].
  by destruct (unmarshalRepositoryVersion jv).
Qed.

(** ** Version counter *)

Lemma wrap64_incr z : wrap64 (wrap64 z + 1) = wrap64 (z + 1).
Proof.
  unfold wrap64.
  replace ((z + 2 ^ 63) mod 2 ^ 64 - 2 ^ 63 + 1 + 2 ^ 63)
    with ((z + 2 ^ 63) mod 2 ^ 64 + 1) by lia.
  rewrite Z.add_mod_idemp_l by lia.
  by replace (z + 2 ^ 63 + 1) with (z + 1 + 2 ^ 63) by lia.
Qed.

Lemma IncrementVersionNumber_named repository v s :
  (GetRepositoryVersion repository s).1 = inr (mkRepositoryVersion repository v) ->
  IncrementVersionNumber repository s
  = (inr tt,
     <[version_key repository :=
         marshalRepositoryVersion (mkRepositoryVersion repository (int_incr v))]> s).
Proof.
  rewrite GetRepositoryVersion_run, IncrementVersionNumber_run. cbn.
  destruct (s !! version_key repository) as [j|]; [|done].
  destruct (unmarshalRepositoryVersion j) as [rv|]; [|done].
  intros ?; by simplify_eq.
Qed.

Lemma GetRepositoryVersion_after_set rv s :
  is_int (rVersionNumber rv) = true ->
  GetRepositoryVersion (rRepository rv)
    (<[version_key (rRepository rv) := marshalRepositoryVersion rv]> s)
  = (inr rv, <[version_key (rRepository rv) := marshalRepositoryVersion rv]> s).
Proof.
  intros Hi. rewrite GetRepositoryVersion_run, lookup_insert_eq.
  by rewrite unmarshal_marshal_RepositoryVersion.
Qed.

Lemma repeat_increment repository (n : nat) : forall v s,
  (GetRepositoryVersion repository s).1 = inr (mkRepositoryVersion repository v) ->
  exists s',
    repeatM n (IncrementVersionNumber repository) s = (inr tt, s')
    /\ (GetRepositoryVersion repository s').1
       = inr (mkRepositoryVersion repository (wrap64 (wrap64 v + Z.of_nat n))).
Proof.
  induction n as [|n IH]; intros v s Hv.
  - exists s. split; [done|]. rewrite Hv. do 2 f_equal.
    rewrite Z.add_0_r.
    assert (Hi : is_int v = true).
    { rewrite GetRepositoryVersion_run in Hv. cbn in Hv.
      destruct (s !! version_key repository) as [j|]; [|done].
      destruct (unmarshalRepositoryVersion j) as [rv|] eqn:Hj; [|done].
      apply unmarshalRepositoryVersion_is_int in Hj. by simplify_eq. }
    apply is_int_spec in Hi. by rewrite !wrap64_id by (rewrite ?wrap64_id; done).
  - cbn [repeatM]. unfold bind at 1.
    rewrite (IncrementVersionNumber_named _ _ _ Hv).
    set (s1 := <[version_key repository := _]> s).
    destruct (IH (int_incr v) s1) as (s' & Hrun & Hget).
    { unfold s1.
      by rewrite (GetRepositoryVersion_after_set (mkRepositoryVersion repository (int_incr v)))
        by apply int_incr_is_int. }
    exists s'. split; [done|]. rewrite Hget. do 2 f_equal.
    unfold int_incr. rewrite (wrap64_id (wrap64 (v + 1))) by (apply is_int_spec, wrap64_is_int).
    rewrite <- (wrap64_incr v).
    rewrite Nat2Z.inj_succ.
    unfold wrap64.
    replace ((v + 2 ^ 63) mod 2 ^ 64 - 2 ^ 63 + 1 + 2 ^ 63) with ((v + 2 ^ 63) mod 2 ^ 64 + 1) by lia.
    replace (((v + 2 ^ 63) mod 2 ^ 64 + 1) mod 2 ^ 64 - 2 ^ 63 + Z.of_nat n + 2 ^ 63)
      with (((v + 2 ^ 63) mod 2 ^ 64 + 1) mod 2 ^ 64 + Z.of_nat n) by lia.
    replace ((v + 2 ^ 63) mod 2 ^ 64 - 2 ^ 63 + Z.succ (Z.of_nat n) + 2 ^ 63)
      with (((v + 2 ^ 63) mod 2 ^ 64 + 1) + Z.of_nat n) by lia.
    by rewrite Z.add_mod_idemp_l by lia.
Qed.

(** C3. From a version record of [repository] at 1, [n] calls of
    [IncrementVersionNumber] all succeed and leave the counter at
    [1 + n] in Go's [int] arithmetic, which is the integer [1 + n]
    as long as that fits an [int]; without a version record the call
    fails with [NoVersion] and writes nothing. *)
Theorem increment_n_times repository (n : nat) s :
  (GetRepositoryVersion repository s).1 = inr (mkRepositoryVersion repository 1) ->
  (exists s',
      repeatM n (IncrementVersionNumber repository) s = (inr tt, s')
      /\ (GetRepositoryVersion repository s').1
         = inr (mkRepositoryVersion repository (wrap64 (1 + Z.of_nat n)))
      /\ (1 + Z.of_nat n <= max_int ->
          (GetRepositoryVersion repository s').1
          = inr (mkRepositoryVersion repository (1 + Z.of_nat n))))
  /\ (forall s0, s0 !! version_key repository = None ->
        IncrementVersionNumber repository s0 = (inl (NoVersion repository), s0)).
Proof.
  intros H1. split.
  - destruct (repeat_increment repository n 1 s H1) as (s' & Hrun & Hget).
    rewrite (wrap64_id 1) in Hget by (unfold min_int, max_int; lia).
    exists s'. repeat split; [done..|].
    intros Hle. rewrite Hget. do 2 f_equal. apply wrap64_id.
    unfold min_int. lia.
  - intros s0 H0. rewrite IncrementVersionNumber_run. by rewrite H0.
Qed.

Lemma increment_n_times_witness :
  exists s',
    repeatM 3 (IncrementVersionNumber "repo1") ledger0 = (inr tt, s')
    /\ (GetRepositoryVersion "repo1" s').1 = inr (mkRepositoryVersion "repo1" 4).
Proof.
  destruct (increment_n_times "repo1" 3 ledger0) as [(s' & Hrun & _ & Hget) _].
  - vm_compute. reflexivity.
  - exists s'. split; [exact Hrun|]. apply Hget. vm_compute. discriminate.
Defined.

(** ** Commit creation *)

(** C4. When the store holds a value at [commitHash],
    [CreateGitCommit] fails with [AlreadyExists] and hands the store
    back as it was: the record at that key keeps its value. *)
Theorem create_existing_fails now commitHash repository commitMessage author s j :
  s !! commitHash = Some j ->
  CreateGitCommit now commitHash repository commitMessage author s
  = (inl (AlreadyExists commitHash), s)
  /\ (CreateGitCommit now commitHash repository commitMessage author s).2 !! commitHash
     = Some j.
Proof.
  intros Hj. rewrite CreateGitCommit_run, Hj. done.
Qed.

Lemma create_existing_fails_witness :
  CreateGitCommit "2023-06-03T09:30:00Z" "hash1" "repo2" "Again" "Carol" ledger0
  = (inl (AlreadyExists "hash1"), ledger0)
  /\ (CreateGitCommit "2023-06-03T09:30:00Z" "hash1" "repo2" "Again" "Carol" ledger0).2
       !! "hash1"
     = Some (marshalGitCommit
               (mkGitCommit "hash1" "repo1" "Initial commit" "Alice" 1
                            "2023-06-01T12:00:00Z")).
Proof.
  apply (create_existing_fails "2023-06-03T09:30:00Z" "hash1" "repo2" "Again" "Carol" ledger0).
  vm_compute. reflexivity.
Defined.






(** ** One keyspace for all record types *)



(** ** Push *)


Lemma not_in_push_range_version_key r : in_range "PUSH_" "PUSH_~" (version_key r) = false.
Proof. done. Qed.

Lemma is_push_key_not_version_key k r : is_push_key k = true -> k <> version_key r.
Proof. intros Hk ->. done. Qed.

Lemma GetAllPushTransactions_insert_version_key r j s :
  (GetAllPushTransactions (<[version_key r := j]> s)).1 = (GetAllPushTransactions s).1.
Proof.
  unfold GetAllPushTransactions, bind, GetStateByRange, range_entries. cbn [fst snd].
  rewrite map_filter_insert_not.
  2:{ intros y Hy. cbn [fst] in Hy. by rewrite not_in_push_range_version_key in Hy. }
  by destruct (mapM _ _).
Qed.

(** The re-read of the counter after the commit was put back finds a
    record that decodes. *)
Lemma counter_after_rewrite repository commitHash j rv jc c (s : store) :
  s !! version_key repository = Some j ->
  unmarshalRepositoryVersion j = Some rv ->
  unmarshalGitCommit jc = Some c ->
  exists jv rv',
    <[commitHash := marshalGitCommit c]>
      (<[version_key (rRepository rv) :=
           marshalRepositoryVersion
             (mkRepositoryVersion (rRepository rv) (int_incr (rVersionNumber rv)))]> s)
      !! version_key repository = Some jv
    /\ unmarshalRepositoryVersion jv = Some rv'.
Proof.
  intros Hj Hrv Hc.
  destruct (decide (commitHash = version_key repository)) as [->|Hne].
  - rewrite lookup_insert_eq. eexists _, _. split; [done|].
    apply unmarshalRepositoryVersion_GitCommit. eauto using unmarshalGitCommit_is_int.
  - rewrite lookup_insert_ne by done.
    destruct (decide (version_key (rRepository rv) = version_key repository)) as [->|Hne'].
    + rewrite lookup_insert_eq. eexists _, _. split; [done|].
      apply unmarshal_marshal_RepositoryVersion, int_incr_is_int.
    + rewrite lookup_insert_ne by done. eauto.
Qed.

(** A push that fails has stopped before the commit is put back: the
    store is the one it started from, or that store with the write of
    [IncrementVersionNumber]. *)
Lemma HandleGitPush_failure now repository remoteURL commitHash s e s' :
  HandleGitPush now repository remoteURL commitHash s = (inl e, s') ->
  (IncrementVersionNumber repository s = (inl e, s') /\ s' = s)
  \/ (IncrementVersionNumber repository s = (inr tt, s')
      /\ (e = NotFound commitHash /\ s' !! commitHash = None
          \/ e = EncodingFailure
          \/ exists j c, s' !! commitHash = Some j /\ unmarshalGitCommit j = Some c
                         /\ Repository c <> repository
                         /\ e = RepositoryMismatch repository (Repository c))).
Proof.
  rewrite HandleGitPush_run, IncrementVersionNumber_run.
  destruct (s !! version_key repository) as [j|] eqn:Hj; [|intros; simplify_eq; by left].
  destruct (unmarshalRepositoryVersion j) as [rv|] eqn:Hrv; [|intros; simplify_eq; by left].
  set (s1 := <[version_key (rRepository rv) := _]> s).
  destruct (s1 !! commitHash) as [jc|] eqn:Hjc; [|intros; simplify_eq; right; eauto].
  destruct (unmarshalGitCommit jc) as [c|] eqn:Hc; [|intros; simplify_eq; right; eauto].
  case_decide as Hrepo; [|intros; simplify_eq; right; split; [done|]; eauto 10].
  cbn zeta.
  destruct (counter_after_rewrite repository commitHash j rv jc c s Hj Hrv Hc)
    as (jv & rv' & Hjv & Hrv').
  fold s1 in Hjv. rewrite Hjv, Hrv'. done.
Qed.

(** C2. A push that fails puts no push transaction: every key with
    the push prefix holds what it held, and the listing of push
    transactions is the same. When it fails on the repository check,
    the store handed back is the one after the successful
    [IncrementVersionNumber]: the counter write is in it. *)
Theorem failed_push_writes_no_event now repository remoteURL commitHash s e s' :
  HandleGitPush now repository remoteURL commitHash s = (inl e, s') ->
  (forall k, is_push_key k = true -> s' !! k = s !! k)
  /\ (GetAllPushTransactions s').1 = (GetAllPushTransactions s).1
  /\ (s !! version_key repository = None -> e = NoVersion repository /\ s' = s)
  /\ (forall got, e = RepositoryMismatch repository got ->
        exists rv,
          (GetRepositoryVersion repository s).1 = inr rv
          /\ IncrementVersionNumber repository s = (inr tt, s')
          /\ s' = <[version_key (rRepository rv) :=
                      marshalRepositoryVersion
                        (mkRepositoryVersion (rRepository rv)
                                             (int_incr (rVersionNumber rv)))]> s).
Proof.
  intros Hfail.
  apply HandleGitPush_failure in Hfail as [[Hinc ->]|[Hinc He]].
  - split; [done|]. split; [done|]. split.
    + intros Hn. rewrite IncrementVersionNumber_run, Hn in Hinc. by simplify_eq.
    + intros got ->. rewrite IncrementVersionNumber_run in Hinc.
      destruct (s !! version_key repository) as [j|]; [|by simplify_eq].
      destruct (unmarshalRepositoryVersion j); by simplify_eq.
  - rewrite IncrementVersionNumber_run in Hinc.
    rewrite GetRepositoryVersion_run. cbn [fst].
    destruct (s !! version_key repository) as [j|] eqn:Hj; [|by simplify_eq].
    destruct (unmarshalRepositoryVersion j) as [rv|] eqn:Hrv; [|by simplify_eq].
    injection Hinc as <-.
    split; [|split; [|split]].
    + intros k Hk. apply lookup_insert_ne. by apply not_eq_sym, is_push_key_not_version_key.
    + apply GetAllPushTransactions_insert_version_key.
    + done.
    + intros got _. exists rv. by rewrite IncrementVersionNumber_run, Hj, Hrv.
Qed.

Lemma failed_push_writes_no_event_witness :
  let s' := (HandleGitPush "2023-06-03T10:00:00Z" "repo2" "http://x/repo2" "hash1" ledger0).2 in
  (forall k, is_push_key k = true -> s' !! k = ledger0 !! k)
  /\ (GetAllPushTransactions s').1 = (GetAllPushTransactions ledger0).1
  /\ (GetRepositoryVersion "repo2" s').1 = inr (mkRepositoryVersion "repo2" 2).
Proof.
  cbn zeta.
  destruct (failed_push_writes_no_event "2023-06-03T10:00:00Z" "repo2" "http://x/repo2"
              "hash1" ledger0 (RepositoryMismatch "repo2" "repo1")
              (HandleGitPush "2023-06-03T10:00:00Z" "repo2" "http://x/repo2" "hash1"
                             ledger0).2)
    as (Hkeys & Hlist & _ & _).
  - vm_compute. reflexivity.
  - split; [exact Hkeys|]. split; [exact Hlist|]. vm_compute. reflexivity.
Defined.






(** ** Listing push transactions *)

Lemma elem_of_range_entries startKey endKey (s : store) k v :
  (k, v) ∈ range_entries startKey endKey s
  <-> s !! k = Some v /\ in_range startKey endKey k = true.
Proof.
  unfold range_entries. rewrite merge_sort_Permutation, elem_of_map_to_list.
  rewrite map_lookup_filter_Some. cbn [fst].
  rewrite Is_true_true. tauto.
Qed.

Global Instance key_le_total : Total key_le.
Proof. intros p q. apply String.leb_total. Qed.

(** A scan yields its entries in ascending key order. *)
Lemma range_entries_Sorted startKey endKey (s : store) :
  Sorted key_le (range_entries startKey endKey s).
Proof. apply (Sorted_merge_sort key_le). Qed.

(** Version records are never in the interval the listing scans. *)
Lemma range_entries_no_version_key (s : store) r v :
  (version_key r, v) ∉ range_entries "PUSH_" "PUSH_~" s.
Proof.
  rewrite elem_of_range_entries, not_in_push_range_version_key. by intros [_ ?].
Qed.

Lemma range_step p lo hi k :
  String.leb (String p lo) k = true ->
  String.ltb k (String p hi) = true ->
  exists k', k = String p k' /\ String.leb lo k' = true /\ String.ltb k' hi = true.
Proof.
  destruct k as [|a k]; [done|].
  unfold String.leb, String.ltb. cbn [String.compare].
  rewrite (Ascii.compare_antisym a p).
  destruct (Ascii.compare p a) eqn:E; cbn; [|done..].
  apply Ascii.compare_eq_iff in E as ->. eauto.
Qed.

Lemma in_push_range_is_push_key k :
  in_range "PUSH_" "PUSH_~" k = true -> is_push_key k = true.
Proof.
  unfold in_range. rewrite andb_true_iff. intros [Hlo Hhi].
  destruct (range_step _ _ _ _ Hlo Hhi) as (k1 & -> & Hlo1 & Hhi1).
  destruct (range_step _ _ _ _ Hlo1 Hhi1) as (k2 & -> & Hlo2 & Hhi2).
  destruct (range_step _ _ _ _ Hlo2 Hhi2) as (k3 & -> & Hlo3 & Hhi3).
  destruct (range_step _ _ _ _ Hlo3 Hhi3) as (k4 & -> & Hlo4 & Hhi4).
  destruct (range_step _ _ _ _ Hlo4 Hhi4) as (k5 & -> & _).
  by destruct k5.
Qed.

(** What the listing scans does carry the push prefix; the converse
    is what fails. *)
Lemma push_range_entries_prefix (s : store) k v :
  (k, v) ∈ range_entries "PUSH_" "PUSH_~" s ->
  s !! k = Some v /\ is_push_key k = true.
Proof.
  rewrite elem_of_range_entries. intros [Hk Hr].
  eauto using in_push_range_is_push_key.
Qed.

(** C7, at a repository name that starts with [~]. The push succeeds
    and stores its transaction under a key with the push prefix, yet
    [GetAllPushTransactions] returns nothing: the key is not below
    the upper bound [PUSH_~] of the scan. *)
Theorem push_listing_misses_tilde_repository :
  let s := (CreateGitCommit "2023-06-03T09:00:00Z" "c1" "~r" "m" "Alice" ∅).2 in
  let res := HandleGitPush "2023-06-03T10:00:00Z" "~r" "http://x/r" "c1" s in
  res.1 = inr (build_message "http://x/r")
  /\ is_push_key (push_key "~r" "2023-06-03T10:00:00Z") = true
  /\ res.2 !! push_key "~r" "2023-06-03T10:00:00Z"
     = Some (marshalPushTransaction
               (mkPushTransaction "~r" "http://x/r" "2023-06-03T10:00:00Z" 2 "c1"))
  /\ in_range "PUSH_" "PUSH_~" (push_key "~r" "2023-06-03T10:00:00Z") = false
  /\ (GetAllPushTransactions res.2).1 = inr [].
Proof.
  cbn zeta. repeat split; vm_compute; reflexivity.
Qed.

(** ** The invariant of version records *)

Ltac case_key k name H1 H2 :=
  destruct (String.eqb_spec k name) as [?|];
  [subst; cbn in H1, H2; simplify_option_eq; done|].

(** A commit and a version record decoded from the same document
    agree on the repository and on the version number. *)
Lemma set_agree c rv m c' rv' :
  Repository c = rRepository rv ->
  VersionNumber c = rVersionNumber rv ->
  setGitCommit c m = Some c' ->
  setRepositoryVersion rv m = Some rv' ->
  Repository c' = rRepository rv' /\ VersionNumber c' = rVersionNumber rv'.
Proof.
  intros HR HV. destruct m as [k x].
  unfold setGitCommit, setRepositoryVersion, field_index, equal_fold.
  cbn [fst snd GitCommit_names RepositoryVersion_names index_where].
  intros H1 H2.
  case_key k "CommitHash" H1 H2. case_key k "Repository" H1 H2.
  case_key k "CommitMessage" H1 H2. case_key k "Author" H1 H2.
  case_key k "VersionNumber" H1 H2. case_key k "Timestamp" H1 H2.
  generalize dependent (lower k). intros lk H1 H2.
  case_key lk (lower "CommitHash") H1 H2. case_key lk (lower "Repository") H1 H2.
  case_key lk (lower "CommitMessage") H1 H2. case_key lk (lower "Author") H1 H2.
  case_key lk (lower "VersionNumber") H1 H2. case_key lk (lower "Timestamp") H1 H2.
  by simplify_eq.
Qed.

Lemma unmarshalWith_agree j : forall rv0 c0 c rv,
  Repository c0 = rRepository rv0 ->
  VersionNumber c0 = rVersionNumber rv0 ->
  unmarshalWith setGitCommit c0 j = Some c ->
  unmarshalWith setRepositoryVersion rv0 j = Some rv ->
  Repository c = rRepository rv /\ VersionNumber c = rVersionNumber rv.
Proof.
  induction j as [|m j IH]; intros rv0 c0 c rv HR HV Hc Hrv; cbn in Hc, Hrv.
  - by simplify_eq.
  - destruct (setGitCommit c0 m) as [c1|] eqn:E1; [|done].
    destruct (setRepositoryVersion rv0 m) as [rv1|] eqn:E2; [|done].
    destruct (set_agree _ _ _ _ _ HR HV E1 E2). eauto.
Qed.

Lemma unmarshal_agree j c rv :
  unmarshalGitCommit j = Some c ->
  unmarshalRepositoryVersion j = Some rv ->
  Repository c = rRepository rv /\ VersionNumber c = rVersionNumber rv.
Proof. by apply unmarshalWith_agree. Qed.

Lemma version_change_ext (s s1 s' : store) r :
  s' !! version_key r = s1 !! version_key r ->
  version_change s s1 r -> version_change s s' r.
Proof. unfold version_change. intros ->. done. Qed.

Lemma version_change_step (s s' : store) :
  versions_wf s -> versions_below_max s ->
  (forall r, version_change s s' r) ->
  version_step s s' /\ versions_wf s'.
Proof.
  intros Hwf Hmax Hch. split.
  - intros r. destruct (Hch r) as [Heq|[(j & rv & j' & Hj & Hrv & Hj' & Hrv')|[Hn Hs]]].
    + rewrite Heq. destruct (s !! version_key r) as [j|]; [|done].
      intros rv Hrv. exists j, rv. split; [done|]. split; [done|]. lia.
    + rewrite Hj. intros rv0 Hrv0. simplify_eq. eexists j', _.
      split; [done|]. split; [done|]. cbn.
      pose proof (Hmax _ _ _ Hj Hrv).
      apply unmarshalRepositoryVersion_is_int, is_int_spec in Hrv.
      rewrite int_incr_succ by lia. lia.
    + rewrite Hn. intros j' Hj'. rewrite Hs in Hj'. simplify_eq.
      by eexists.
  - intros r j' Hj'.
    destruct (Hch r) as [Heq|[(j & rv & j0 & Hj & Hrv & Hj0 & Hrv')|[Hn Hs]]].
    + rewrite Heq in Hj'. eauto.
    + rewrite Hj0 in Hj'. simplify_eq. by eexists.
    + rewrite Hs in Hj'. simplify_eq. by eexists.
Qed.

Lemma increment_version_change repository (s : store) :
  versions_wf s ->
  forall r, version_change s (IncrementVersionNumber repository s).2 r.
Proof.
  intros Hwf r. rewrite IncrementVersionNumber_run.
  destruct (s !! version_key repository) as [j|] eqn:Hj; [|by left].
  destruct (unmarshalRepositoryVersion j) as [rv|] eqn:Hrv; [|by left].
  destruct (Hwf _ _ Hj) as (rv0 & Hrv0 & Hname). simplify_eq. cbn [snd].
  destruct (decide (r = rRepository rv)) as [->|Hne].
  - right; left. eexists j, rv, _. rewrite lookup_insert_eq.
    split; [done|]. split; [done|]. split; [done|].
    apply unmarshal_marshal_RepositoryVersion, int_incr_is_int.
  - left. apply lookup_insert_ne. intros Heq. by apply version_key_inj in Heq.
Qed.

Lemma create_version_change now commitHash repository commitMessage author (s : store) :
  (forall r, commitHash <> version_key r) ->
  forall r, version_change s
              (CreateGitCommit now commitHash repository commitMessage author s).2 r.
Proof.
  intros Hnv r. rewrite CreateGitCommit_run.
  destruct (s !! commitHash); [by left|].
  destruct (s !! version_key repository) as [j|] eqn:Hj.
  - destruct (unmarshalRepositoryVersion j); [|by left].
    left. cbn [snd]. by rewrite lookup_insert_ne.
  - cbn [snd]. destruct (decide (r = repository)) as [->|Hne].
    + right; right. split; [done|].
      by rewrite lookup_insert_ne, lookup_insert_eq.
    + left. rewrite !lookup_insert_ne; [done| |done].
      intros Heq. by apply version_key_inj in Heq.
Qed.

Lemma push_version_change now repository remoteURL commitHash (s : store) :
  versions_wf s ->
  forall r, version_change s (HandleGitPush now repository remoteURL commitHash s).2 r.
Proof.
  intros Hwf r. rewrite HandleGitPush_run.
  pose proof (increment_version_change repository s Hwf r) as Hinc.
  rewrite IncrementVersionNumber_run in Hinc |- *.
  destruct (s !! version_key repository) as [j|] eqn:Hj; [|by left].
  destruct (unmarshalRepositoryVersion j) as [rv|] eqn:Hrv; [|by left].
  destruct (Hwf _ _ Hj) as (rv0 & Hrv0 & Hname).
  rewrite Hrv in Hrv0. injection Hrv0 as <-.
  cbn [snd] in Hinc.
  destruct (_ !! commitHash) as [jc|] eqn:Hjc; [|exact Hinc].
  destruct (unmarshalGitCommit jc) as [c|] eqn:Hc; [|exact Hinc].
  case_decide as Hrepo; [|exact Hinc]. cbn zeta.
  destruct (counter_after_rewrite repository commitHash j rv jc c s Hj Hrv Hc)
    as (jv & rv' & Hjv & Hrv').
  rewrite Hjv, Hrv'. cbn [snd].
  destruct (decide (commitHash = version_key r)) as [->|Hne].
  - assert (r = repository) as ->.
    { destruct (decide (version_key (rRepository rv) = version_key r)) as [Heq|Hneq].
      - apply version_key_inj in Heq. congruence.
      - rewrite lookup_insert_ne in Hjc by done.
        destruct (Hwf _ _ Hjc) as (rvr & Hrvr & Hnr).
        destruct (unmarshal_agree _ _ _ Hc Hrvr). congruence. }
    rewrite Hname, lookup_insert_eq in Hjc. injection Hjc as <-.
    rewrite unmarshalGitCommit_RepositoryVersion in Hc by apply int_incr_is_int.
    injection Hc as <-.
    right; left. eexists j, rv, _.
    rewrite lookup_insert_ne by (apply not_eq_sym, version_key_not_push).
    rewrite lookup_insert_eq. split; [done|]. split; [done|]. split; [done|].
    rewrite unmarshalRepositoryVersion_GitCommit by apply int_incr_is_int.
    cbn. congruence.
  - eapply version_change_ext; [|exact Hinc].
    rewrite lookup_insert_ne by (apply not_eq_sym, version_key_not_push).
    by rewrite lookup_insert_ne.
Qed.

(** C8, for the operations that keep it. On a store whose version records are well formed
    and below the largest [int], [IncrementVersionNumber],
    [HandleGitPush] and [CreateGitCommit] with a hash that is not a
    version key keep the invariant: a version record that exists
    stays and does not decrease, one that appears starts at 1, and
    the records stay well formed. [SetRepositoryVersion] is not among
    them. *)
Theorem version_invariant_preserved (s : store) :
  versions_wf s ->
  versions_below_max s ->
  (forall repository,
      version_step s (IncrementVersionNumber repository s).2
      /\ versions_wf (IncrementVersionNumber repository s).2)
  /\ (forall now repository remoteURL commitHash,
        version_step s (HandleGitPush now repository remoteURL commitHash s).2
        /\ versions_wf (HandleGitPush now repository remoteURL commitHash s).2)
  /\ (forall now commitHash repository commitMessage author,
        (forall r, commitHash <> version_key r) ->
        version_step s (CreateGitCommit now commitHash repository commitMessage author s).2
        /\ versions_wf (CreateGitCommit now commitHash repository commitMessage author s).2).
Proof.
  intros Hwf Hmax. split; [|split].
  - intros repository. apply version_change_step; [done..|].
    by apply increment_version_change.
  - intros now repository remoteURL commitHash. apply version_change_step; [done..|].
    by apply push_version_change.
  - intros now commitHash repository commitMessage author Hnv.
    apply version_change_step; [done..|]. by apply create_version_change.
Qed.

Lemma ledger5_lookup r j :
  ledger5 !! version_key r = Some j ->
  r = "repo1" /\ j = marshalRepositoryVersion (mkRepositoryVersion "repo1" 5).
Proof.
  unfold ledger5, SetRepositoryVersion, PutState. cbn [snd rRepository].
  intros Hj. apply lookup_insert_Some in Hj as [[Hk <-]|[_ Hj]].
  - by apply version_key_inj in Hk.
  - by rewrite lookup_empty in Hj.
Qed.

Lemma versions_wf_ledger5 : versions_wf ledger5.
Proof. intros r j Hj. apply ledger5_lookup in Hj as [-> ->]. by eexists. Qed.

Lemma versions_below_max_ledger5 : versions_below_max ledger5.
Proof.
  intros r j rv Hj Hrv. apply ledger5_lookup in Hj as [-> ->].
  vm_compute in Hrv. injection Hrv as <-. done.
Qed.

Lemma version_invariant_preserved_witness :
  version_step ledger5 (IncrementVersionNumber "repo1" ledger5).2
  /\ versions_wf (IncrementVersionNumber "repo1" ledger5).2.
Proof.
  destruct (version_invariant_preserved ledger5 versions_wf_ledger5
              versions_below_max_ledger5) as (Hincr & _ & _).
  apply Hincr.
Defined.

(** [SetRepositoryVersion] does not keep the invariant: the
    overwrite lowers a counter from 5 to 3, and on a repository
    without a record it starts the counter at 7. *)
Lemma set_version_breaks_invariant :
  let s' := (SetRepositoryVersion (mkRepositoryVersion "repo1" 3) ledger5).2 in
  let s7 := (SetRepositoryVersion (mkRepositoryVersion "repo9" 7) ∅).2 in
  versions_wf ledger5 /\ versions_below_max ledger5
  /\ (GetRepositoryVersion "repo1" ledger5).1 = inr (mkRepositoryVersion "repo1" 5)
  /\ (GetRepositoryVersion "repo1" s').1 = inr (mkRepositoryVersion "repo1" 3)
  /\ ~ version_step ledger5 s'
  /\ (GetRepositoryVersion "repo9" s7).1 = inr (mkRepositoryVersion "repo9" 7)
  /\ ~ version_step ∅ s7.
Proof.
  cbn zeta.
  split; [apply versions_wf_ledger5|]. split; [apply versions_below_max_ledger5|].
  split; [vm_compute; reflexivity|]. split; [vm_compute; reflexivity|].
  unfold ledger5, SetRepositoryVersion, PutState. cbn [snd rRepository].
  split; [|split].
  - intros Hstep. specialize (Hstep "repo1"). rewrite lookup_insert_eq in Hstep.
    destruct (Hstep _ eq_refl) as (j' & rv' & Hj' & Hrv' & Hle).
    rewrite lookup_insert_eq in Hj'. injection Hj' as <-.
    vm_compute in Hrv'. injection Hrv' as <-. vm_compute in Hle. by apply Hle.
  - vm_compute. reflexivity.
  - intros Hstep. specialize (Hstep "repo9"). rewrite lookup_empty in Hstep.
    destruct (Hstep _ (lookup_insert_eq _ _ _)) as (rv' & Hrv' & H1).
    vm_compute in Hrv'. injection Hrv' as <-. discriminate H1.
Qed.

(** ** Listing commits *)

Lemma ltb_asym a b : String.ltb a b = true -> String.ltb b a = false.
Proof.
  unfold String.ltb. rewrite (String.compare_antisym a b).
  by destruct (String.compare b a).
Qed.

Lemma less_timestamp_asym a b : less_timestamp a b = true -> less_timestamp b a = false.
Proof. apply ltb_asym. Qed.

Lemma insert_before_Permutation {A : Type} (less : A -> A -> bool) a l :
  insert_before less a l ≡ₚ a :: l.
Proof.
  induction l as [|b l IH]; cbn; [done|].
  destruct (less b a); [|done]. rewrite IH. apply Permutation_swap.
Qed.


Lemma insert_before_Sorted a l :
  Sorted not_after l -> Sorted not_after (insert_before less_timestamp a l).
Proof.
  induction 1 as [|b l Hl IH Hhd]; cbn; [by repeat constructor|].
  destruct (less_timestamp b a) eqn:Hba.
  - constructor; [done|]. apply less_timestamp_asym in Hba.
    destruct Hhd as [|b' l' Hb']; cbn; [by constructor|].
    destruct (less_timestamp b' a); by constructor.
  - repeat constructor; done.
Qed.


Lemma sort_ties_first_contract : sort_contract (@sort_ties_first GitCommit).
Proof.
  intros l. unfold sort_ties_first. induction l as [|a l [IHp IHs]]; cbn.
  - split; [done|constructor].
  - split; [by rewrite insert_before_Permutation, IHp|by apply insert_before_Sorted].
Qed.


Section listing.
Variable sort_slice :
  (GitCommit -> GitCommit -> bool) -> list GitCommit -> list GitCommit.
Hypothesis sort_slice_ok : sort_contract sort_slice.

Lemma GetAllGitCommits_run (s : store) :
  GetAllGitCommits sort_slice s
  = (match mapM (fun kv : string * value => unmarshalGitCommit kv.2)
                (range_entries EmptyString EmptyString s) with
     | Some gitCommits => inr (sort_slice less_timestamp gitCommits)
     | None => inl EncodingFailure
     end, s).
Proof.
  unfold GetAllGitCommits, bind, GetStateByRange, decode, ret, fail.
  by destruct (mapM _ _).
Qed.

End listing.



(** ** Scenarios *)

Example scenario_push_after_commit :
  let s1 := (CreateGitCommit "2023-06-03T09:00:00Z" "h1" "repo1" "m" "Alice" ∅).2 in
  let s2 := (HandleGitPush "2023-06-03T10:00:00Z" "repo1" "http://x/repo1" "h1" s1).2 in
  (ReadGitCommit "h1" s1).1
  = inr (mkGitCommit "h1" "repo1" "m" "Alice" 1 "2023-06-03T09:00:00Z")
  /\ (GetRepositoryVersion "repo1" s2).1 = inr (mkRepositoryVersion "repo1" 2)
  /\ (GetAllPushTransactions s2).1
     = inr [mkPushTransaction "repo1" "http://x/repo1" "2023-06-03T10:00:00Z" 2 "h1"].
Proof. cbn zeta. repeat split; vm_compute; reflexivity. Qed.

Example scenario_push_without_version :
  HandleGitPush "2023-06-03T10:00:00Z" "repo1" "http://x/repo1" "h1" ∅
  = (inl (NoVersion "repo1"), ∅)
  /\ (GetAllPushTransactions ∅).1 = inr [].
Proof. split; vm_compute; reflexivity. Qed.

Example scenario_two_commits_then_push :
  let s1 := (CreateGitCommit "2023-06-03T09:00:00Z" "h1" "repo1" "m1" "Alice" ∅).2 in
  let s2 := (CreateGitCommit "2023-06-03T09:30:00Z" "h2" "repo1" "m2" "Bob" s1).2 in
  let s3 := (HandleGitPush "2023-06-03T10:00:00Z" "repo1" "http://x/repo1" "h2" s2).2 in
  (ReadGitCommit "h1" s3).1
  = inr (mkGitCommit "h1" "repo1" "m1" "Alice" 1 "2023-06-03T09:00:00Z")
  /\ (ReadGitCommit "h2" s3).1
     = inr (mkGitCommit "h2" "repo1" "m2" "Bob" 1 "2023-06-03T09:30:00Z")
  /\ (GetAllPushTransactions s3).1
     = inr [mkPushTransaction "repo1" "http://x/repo1" "2023-06-03T10:00:00Z" 2 "h2"].
Proof. cbn zeta. repeat split; vm_compute; reflexivity. Qed.

(** * Further properties of the contract *)

(** ** Queries *)

(** X1. The five queries hand the store back as they found it,
    whether they succeed or fail. *)
Theorem queries_leave_store
    (sort_slice : (GitCommit -> GitCommit -> bool) -> list GitCommit -> list GitCommit)
    commitHash repository (s : store) :
  (ReadGitCommit commitHash s).2 = s
  /\ (GitCommitExists commitHash s).2 = s
  /\ (GetRepositoryVersion repository s).2 = s
  /\ (GetAllGitCommits sort_slice s).2 = s
  /\ (GetAllPushTransactions s).2 = s.
Proof.
  rewrite ReadGitCommit_run, GitCommitExists_run, GetRepositoryVersion_run,
    GetAllGitCommits_run.
  repeat split; try done.
  unfold GetAllPushTransactions, bind, GetStateByRange, decode.
  by destruct (mapM _ _).
Qed.

(** ** Creating commits *)





(** X4. A successful [CreateGitCommit] touches the key of the hash
    and, only when the repository had no version record, the version
    key of the repository; every other key holds what it held. *)
Theorem create_frame now commitHash repository commitMessage author (s s' : store) :
  CreateGitCommit now commitHash repository commitMessage author s = (inr tt, s') ->
  forall k, k <> commitHash ->
    k <> version_key repository \/ is_Some (s !! version_key repository) ->
    s' !! k = s !! k.
Proof.
  rewrite CreateGitCommit_run.
  destruct (s !! commitHash); [done|].
  destruct (s !! version_key repository) as [j|] eqn:Hj.
  - destruct (unmarshalRepositoryVersion j); [|done].
    intros [= <-] k Hk _. by rewrite lookup_insert_ne.
  - intros [= <-] k Hk [Hv|[? ?]]; [|done].
    by rewrite !lookup_insert_ne.
Qed.

Lemma create_frame_witness :
  (CreateGitCommit "2023-06-03T09:00:00Z" "c1" "repo1" "m" "Alice" ledger5).2
    !! version_key "repo1"
  = ledger5 !! version_key "repo1".
Proof.
  apply (create_frame "2023-06-03T09:00:00Z" "c1" "repo1" "m" "Alice" ledger5).
  - vm_compute. reflexivity.
  - vm_compute. discriminate.
  - right. vm_compute. eexists. reflexivity.
Defined.

(** ** Version counters *)

(** X5. A version record put by [SetRepositoryVersion] is what
    [GetRepositoryVersion] returns for its repository, and no other
    key changes. *)
Theorem set_then_get rv (s : store) :
  is_int (rVersionNumber rv) = true ->
  exists s',
    SetRepositoryVersion rv s = (inr tt, s')
    /\ GetRepositoryVersion (rRepository rv) s' = (inr rv, s')
    /\ (forall k, k <> version_key (rRepository rv) -> s' !! k = s !! k).
Proof.
  intros Hi. eexists. split; [done|]. split.
  - by apply GetRepositoryVersion_after_set.
  - intros k Hk. by rewrite lookup_insert_ne.
Qed.

Lemma set_then_get_witness :
  exists s',
    SetRepositoryVersion (mkRepositoryVersion "repo1" 3) ledger0 = (inr tt, s')
    /\ GetRepositoryVersion "repo1" s' = (inr (mkRepositoryVersion "repo1" 3), s').
Proof.
  destruct (set_then_get (mkRepositoryVersion "repo1" 3) ledger0) as (s' & Hset & Hget & _).
  - vm_compute. reflexivity.
  - exists s'. split; [exact Hset|exact Hget].
Defined.

(** X6. [IncrementVersionNumber] writes under the repository named
    in the stored record, not under its argument. When the record at
    the version key of [repository] names another repository, the call
    succeeds, the counter of [repository] stays as it was, and the key
    of the other repository receives the incremented record. *)
Theorem increment_follows_stored_name repository (s : store) j rv :
  s !! version_key repository = Some j ->
  unmarshalRepositoryVersion j = Some rv ->
  rRepository rv <> repository ->
  exists s',
    IncrementVersionNumber repository s = (inr tt, s')
    /\ (GetRepositoryVersion repository s').1 = inr rv
    /\ (GetRepositoryVersion (rRepository rv) s').1
       = inr (mkRepositoryVersion (rRepository rv) (int_incr (rVersionNumber rv)))
    /\ (forall k, k <> version_key (rRepository rv) -> s' !! k = s !! k).
Proof.
  intros Hj Hrv Hne. rewrite IncrementVersionNumber_run, Hj, Hrv.
  eexists. split; [done|].
  assert (Hk : version_key (rRepository rv) <> version_key repository).
  { intros Heq. by apply version_key_inj in Heq. }
  split; [|split].
  - rewrite GetRepositoryVersion_run. cbn [fst].
    by rewrite lookup_insert_ne, Hj, Hrv.
  - rewrite GetRepositoryVersion_run. cbn [fst]. rewrite lookup_insert_eq.
    by rewrite unmarshal_marshal_RepositoryVersion by apply int_incr_is_int.
  - intros k Hkne. by rewrite lookup_insert_ne.
Qed.

Lemma increment_follows_stored_name_witness :
  exists s',
    IncrementVersionNumber "a" crossed_ledger = (inr tt, s')
    /\ (GetRepositoryVersion "a" s').1 = inr (mkRepositoryVersion "b" 1)
    /\ (GetRepositoryVersion "b" s').1 = inr (mkRepositoryVersion "b" 2).
Proof.
  destruct (increment_follows_stored_name "a" crossed_ledger
              (marshalGitCommit
                 (mkGitCommit (version_key "a") "b" "m" "Alice" 1 "2023-06-03T09:00:00Z"))
              (mkRepositoryVersion "b" 1))
    as (s' & Hrun & Ha & Hb & _).
  - vm_compute. reflexivity.
  - vm_compute. reflexivity.
  - vm_compute. discriminate.
  - exists s'. split; [exact Hrun|]. split; [exact Ha|exact Hb].
Defined.

(** X7. One [IncrementVersionNumber] on a record of [repository] at
    [v] leaves it at [v + 1], except at the largest [int], where the
    counter wraps to the smallest one. *)
Theorem increment_once repository v (s : store) :
  (GetRepositoryVersion repository s).1 = inr (mkRepositoryVersion repository v) ->
  exists s',
    IncrementVersionNumber repository s = (inr tt, s')
    /\ (GetRepositoryVersion repository s').1
       = inr (mkRepositoryVersion repository (if decide (v = max_int) then min_int else v + 1))
    /\ (forall k, k <> version_key repository -> s' !! k = s !! k).
Proof.
  intros Hv.
  assert (Hi : is_int v = true).
  { rewrite GetRepositoryVersion_run in Hv. cbn [fst] in Hv.
    destruct (s !! version_key repository) as [j|]; [|done].
    destruct (unmarshalRepositoryVersion j) as [rv|] eqn:Hj; [|done].
    apply unmarshalRepositoryVersion_is_int in Hj. by simplify_eq. }
  rewrite (IncrementVersionNumber_named _ _ _ Hv). eexists. split; [done|]. split.
  - rewrite (GetRepositoryVersion_after_set (mkRepositoryVersion repository (int_incr v)))
      by apply int_incr_is_int.
    cbn [fst]. do 2 f_equal. apply is_int_spec in Hi. case_decide as Hmax.
    + subst v. reflexivity.
    + apply int_incr_succ. lia.
  - intros k Hk. by rewrite lookup_insert_ne.
Qed.

Lemma increment_once_witness :
  exists s',
    IncrementVersionNumber "r"
      (SetRepositoryVersion (mkRepositoryVersion "r" max_int) ∅).2 = (inr tt, s')
    /\ (GetRepositoryVersion "r" s').1 = inr (mkRepositoryVersion "r" min_int).
Proof.
  destruct (increment_once "r" max_int
              (SetRepositoryVersion (mkRepositoryVersion "r" max_int) ∅).2)
    as (s' & Hrun & Hget & _).
  - vm_compute. reflexivity.
  - exists s'. split; [exact Hrun|]. exact Hget.
Defined.

(** ** Seeding the ledger *)

Lemma InitLedger_run (s : store) :
  InitLedger s
  = (inr tt,
     <[version_key "git-test" := marshalRepositoryVersion (mkRepositoryVersion "git-test" 1)]>
       (<[version_key "repo2" := marshalRepositoryVersion (mkRepositoryVersion "repo2" 1)]>
          (<[version_key "repo1" := marshalRepositoryVersion (mkRepositoryVersion "repo1" 1)]>
             (<["hash2" :=
                  marshalGitCommit
                    (mkGitCommit "hash2" "repo2" "Added feature" "Bob" 1
                                 "2023-06-02T12:00:00Z")]>
                (<["hash1" :=
                     marshalGitCommit
                       (mkGitCommit "hash1" "repo1" "Initial commit" "Alice" 1
                                    "2023-06-01T12:00:00Z")]> s))))).
Proof. reflexivity. Qed.

Ltac lookup_init :=
  repeat first
    [ rewrite lookup_insert_eq
    | rewrite lookup_insert_ne by (vm_compute; discriminate) ].

(** X8. [InitLedger] succeeds on every store. Afterwards the two
    sample commits read back and the three sample repositories are at
    version 1, whatever the store held under those keys: a counter
    that had advanced is set back to 1. No other key changes, and a
    second run changes nothing. *)
Theorem InitLedger_resets (s : store) :
  exists s',
    InitLedger s = (inr tt, s')
    /\ (ReadGitCommit "hash1" s').1
       = inr (mkGitCommit "hash1" "repo1" "Initial commit" "Alice" 1 "2023-06-01T12:00:00Z")
    /\ (ReadGitCommit "hash2" s').1
       = inr (mkGitCommit "hash2" "repo2" "Added feature" "Bob" 1 "2023-06-02T12:00:00Z")
    /\ (forall r, r ∈ ["repo1"; "repo2"; "git-test"] ->
          (GetRepositoryVersion r s').1 = inr (mkRepositoryVersion r 1))
    /\ (forall k,
          k ∉ ["hash1"; "hash2"; version_key "repo1"; version_key "repo2";
               version_key "git-test"] ->
          s' !! k = s !! k)
    /\ InitLedger s' = (inr tt, s').
Proof.
  rewrite InitLedger_run. eexists. split; [reflexivity|].
  split; [|split; [|split; [|split]]].
  - rewrite ReadGitCommit_run. cbn [fst]. lookup_init. reflexivity.
  - rewrite ReadGitCommit_run. cbn [fst]. lookup_init. reflexivity.
  - intros r Hr. rewrite GetRepositoryVersion_run. cbn [fst].
    set_unfold in Hr. destruct Hr as [->|[->|[->|[]]]]; lookup_init; reflexivity.
  - intros k Hk. set_unfold in Hk.
    rewrite !lookup_insert_ne; [done|..]; intros <-; apply Hk; tauto.
  - rewrite InitLedger_run. f_equal.
    rewrite (insert_id _ "hash1") by (lookup_init; reflexivity).
    rewrite (insert_id _ "hash2") by (lookup_init; reflexivity).
    rewrite (insert_id _ (version_key "repo1")) by (lookup_init; reflexivity).
    rewrite (insert_id _ (version_key "repo2")) by (lookup_init; reflexivity).
    by rewrite (insert_id _ (version_key "git-test")) by (lookup_init; reflexivity).
Qed.

(** ** More on pushes *)


(** X9. A push that names a hash with nothing stored under it fails
    with [NotFound], and the store it hands back carries the
    incremented counter: the check comes after the increment. *)
Theorem push_missing_commit now repository remoteURL commitHash (s : store) v :
  (GetRepositoryVersion repository s).1 = inr (mkRepositoryVersion repository v) ->
  s !! commitHash = None ->
  exists s',
    HandleGitPush now repository remoteURL commitHash s = (inl (NotFound commitHash), s')
    /\ (GetRepositoryVersion repository s').1
       = inr (mkRepositoryVersion repository (int_incr v))
    /\ (forall k, k <> version_key repository -> s' !! k = s !! k).
Proof.
  intros Hv Hc.
  assert (Hne : version_key repository <> commitHash).
  { intros <-. rewrite GetRepositoryVersion_run, Hc in Hv. done. }
  rewrite HandleGitPush_run, (IncrementVersionNumber_named _ _ _ Hv).
  rewrite lookup_insert_ne, Hc by done.
  eexists. split; [done|]. split.
  - by rewrite (GetRepositoryVersion_after_set (mkRepositoryVersion repository (int_incr v)))
      by apply int_incr_is_int.
  - intros k Hk. by rewrite lookup_insert_ne.
Qed.

Lemma push_missing_commit_witness :
  exists s',
    HandleGitPush "2023-06-03T10:00:00Z" "repo1" "http://x/repo1" "nohash" ledger0
    = (inl (NotFound "nohash"), s')
    /\ (GetRepositoryVersion "repo1" s').1 = inr (mkRepositoryVersion "repo1" 2).
Proof.
  destruct (push_missing_commit "2023-06-03T10:00:00Z" "repo1" "http://x/repo1" "nohash"
              ledger0 1) as (s' & Hrun & Hget & _).
  - vm_compute. reflexivity.
  - vm_compute. reflexivity.
  - exists s'. split; [exact Hrun|exact Hget].
Defined.





(** ** More on listings *)

Lemma Forall2_decoded_elem {A B : Type} (f : A -> option B) l k :
  Forall2 (fun x y => f x = Some y) l k ->
  forall y, y ∈ k <-> exists x, x ∈ l /\ f x = Some y.
Proof.
  induction 1 as [|x y l k Hxy _ IH]; intros y'.
  - split; [by intros ?%elem_of_nil|by intros (? & ?%elem_of_nil & _)].
  - rewrite elem_of_cons, IH. split.
    + intros [->|(x' & Hx' & Hf)]; [exists x|exists x']; rewrite elem_of_cons; eauto.
    + intros (x' & [->|Hx']%elem_of_cons & Hf); [left; congruence|right; eauto].
Qed.

Lemma in_range_unbounded k : in_range EmptyString EmptyString k = true.
Proof. done. Qed.

Lemma length_range_entries_unbounded (s : store) :
  length (range_entries EmptyString EmptyString s) = size s.
Proof.
  unfold range_entries. rewrite merge_sort_Permutation.
  rewrite map_filter_id by done. apply length_map_to_list.
Qed.

(** X12. [GetAllGitCommits] scans the whole keyspace: when it
    succeeds, its result holds the decoding, as a commit, of every
    value in the store and nothing else, one entry per key. Version
    records and push transactions are listed as commits too. *)
Theorem listing_holds_every_record
    (sort_slice : (GitCommit -> GitCommit -> bool) -> list GitCommit -> list GitCommit)
    (s : store) l :
  sort_contract sort_slice ->
  GetAllGitCommits sort_slice s = (inr l, s) ->
  (forall c, c ∈ l <-> exists k j, s !! k = Some j /\ unmarshalGitCommit j = Some c)
  /\ length l = size s.
Proof.
  intros Hsort. rewrite GetAllGitCommits_run.
  destruct (mapM _ _) as [gitCommits|] eqn:Hdec; [|done]. intros [= <-].
  destruct (Hsort gitCommits) as [Hperm _].
  apply mapM_Some in Hdec as Hall. split.
  - intros c. rewrite Hperm, (Forall2_decoded_elem _ _ _ Hall). split.
    + intros ([k j] & Hkj & Hc). apply elem_of_range_entries in Hkj as [Hkj _]. eauto.
    + intros (k & j & Hkj & Hc). exists (k, j). split; [|done].
      apply elem_of_range_entries. by rewrite in_range_unbounded.
  - rewrite Hperm, <- (length_mapM _ _ _ Hdec). apply length_range_entries_unbounded.
Qed.

Lemma listing_holds_every_record_witness :
  exists l,
    GetAllGitCommits sort_ties_first ledger5 = (inr l, ledger5)
    /\ mkGitCommit nil_string "repo1" nil_string nil_string 5 nil_string ∈ l
    /\ length l = size ledger5.
Proof.
  destruct (listing_holds_every_record sort_ties_first ledger5
              [mkGitCommit nil_string "repo1" nil_string nil_string 5 nil_string])
    as [Helem Hlen].
  - apply sort_ties_first_contract.
  - vm_compute. reflexivity.
  - eexists. split; [vm_compute; reflexivity|]. split; [|exact Hlen].
    apply Helem. exists (version_key "repo1"), (marshalRepositoryVersion (mkRepositoryVersion "repo1" 5)).
    split; vm_compute; reflexivity.
Defined.

(** X13. When [GetAllPushTransactions] succeeds, its result is the
    decoding, in ascending key order, of the values stored under the
    keys from [PUSH_] up to, and not including, [PUSH_~]. *)
Theorem push_listing_contents (s : store) l :
  GetAllPushTransactions s = (inr l, s) ->
  exists entries,
    Forall2 (fun (kv : string * value) p => unmarshalPushTransaction kv.2 = Some p) entries l
    /\ Sorted key_le entries
    /\ (forall k j, (k, j) ∈ entries
                    <-> s !! k = Some j /\ in_range "PUSH_" "PUSH_~" k = true)
    /\ (forall p, p ∈ l
                  <-> exists k j, s !! k = Some j /\ in_range "PUSH_" "PUSH_~" k = true
                                  /\ unmarshalPushTransaction j = Some p).
Proof.
  unfold GetAllPushTransactions, bind, GetStateByRange, decode.
  destruct (mapM _ _) as [l'|] eqn:Hdec; [|done]. intros [= <-].
  apply mapM_Some in Hdec.
  exists (range_entries "PUSH_" "PUSH_~" s).
  split; [done|]. split; [apply range_entries_Sorted|].
  split; [intros k j; apply elem_of_range_entries|].
  intros p. rewrite (Forall2_decoded_elem _ _ _ Hdec). split.
  - intros ([k j] & Hkj & Hp). apply elem_of_range_entries in Hkj as [Hkj Hr]. eauto.
  - intros (k & j & Hkj & Hr & Hp). exists (k, j). split; [|done].
    by apply elem_of_range_entries.
Qed.

Lemma push_listing_contents_witness :
  let s := (HandleGitPush "2023-06-03T10:00:00Z" "repo1" "http://x/repo1" "hash1" ledger0).2 in
  exists k j,
    s !! k = Some j /\ in_range "PUSH_" "PUSH_~" k = true
    /\ unmarshalPushTransaction j
       = Some (mkPushTransaction "repo1" "http://x/repo1" "2023-06-03T10:00:00Z" 2 "hash1").
Proof.
  cbn zeta.
  destruct (push_listing_contents
              (HandleGitPush "2023-06-03T10:00:00Z" "repo1" "http://x/repo1" "hash1" ledger0).2
              [mkPushTransaction "repo1" "http://x/repo1" "2023-06-03T10:00:00Z" 2 "hash1"])
    as (entries & _ & _ & _ & Hl).
  - vm_compute. reflexivity.
  - apply Hl. apply list_elem_of_singleton. reflexivity.
Defined.






(** ** Ledgers built by the contract *)


Lemma contract_store_empty : contract_store ∅.
Proof. intros k j Hj. by rewrite lookup_empty in Hj. Qed.

Lemma contract_store_insert (s : store) k j :
  contract_store s -> contract_value j -> contract_store (<[k := j]> s).
Proof.
  intros Hs Hj k' j' Hl. apply lookup_insert_Some in Hl as [[_ <-]|[_ Hl]]; eauto.
Qed.

Lemma contract_value_GitCommit c :
  is_int (VersionNumber c) = true -> contract_value (marshalGitCommit c).
Proof. left. eauto. Qed.

Lemma contract_value_RepositoryVersion rv :
  is_int (rVersionNumber rv) = true -> contract_value (marshalRepositoryVersion rv).
Proof. right; left. eauto. Qed.

Lemma contract_value_PushTransaction p :
  is_int (pVersion p) = true -> contract_value (marshalPushTransaction p).
Proof. right; right. eauto. Qed.

Lemma contract_store_InitLedger (s : store) :
  contract_store s -> contract_store (InitLedger s).2.
Proof.
  intros Hs. rewrite InitLedger_run. cbn [snd].
  repeat apply contract_store_insert; try done;
    (apply contract_value_RepositoryVersion || apply contract_value_GitCommit); done.
Qed.

Lemma contract_store_Set rv (s : store) :
  is_int (rVersionNumber rv) = true ->
  contract_store s -> contract_store (SetRepositoryVersion rv s).2.
Proof.
  intros Hi Hs. apply contract_store_insert; [done|].
  by apply contract_value_RepositoryVersion.
Qed.

Lemma contract_store_Increment repository (s : store) :
  contract_store s -> contract_store (IncrementVersionNumber repository s).2.
Proof.
  intros Hs. rewrite IncrementVersionNumber_run.
  destruct (s !! version_key repository) as [j|]; [|done].
  destruct (unmarshalRepositoryVersion j); [|done].
  apply contract_store_insert; [done|].
  apply contract_value_RepositoryVersion, int_incr_is_int.
Qed.

Lemma contract_store_Create now commitHash repository commitMessage author (s : store) :
  contract_store s ->
  contract_store (CreateGitCommit now commitHash repository commitMessage author s).2.
Proof.
  intros Hs. rewrite CreateGitCommit_run.
  destruct (s !! commitHash); [done|].
  destruct (s !! version_key repository) as [j|].
  - destruct (unmarshalRepositoryVersion j) as [rv|] eqn:Hrv; [|done].
    apply contract_store_insert; [done|].
    apply contract_value_GitCommit. eauto using unmarshalRepositoryVersion_is_int.
  - repeat apply contract_store_insert; try done.
    + by apply contract_value_RepositoryVersion.
    + by apply contract_value_GitCommit.
Qed.

Lemma contract_store_Push now repository remoteURL commitHash (s : store) :
  contract_store s ->
  contract_store (HandleGitPush now repository remoteURL commitHash s).2.
Proof.
  intros Hs. rewrite HandleGitPush_run.
  pose proof (contract_store_Increment repository s Hs) as Hs1.
  destruct (IncrementVersionNumber repository s) as [[e|[]] s1]; [done|].
  cbn [snd] in Hs1.
  destruct (s1 !! commitHash) as [jc|]; [|done].
  destruct (unmarshalGitCommit jc) as [c|] eqn:Hc; [|done].
  case_decide; [|done]. cbn zeta.
  assert (contract_store (<[commitHash := marshalGitCommit c]> s1)) as Hs2.
  { apply contract_store_insert; [done|].
    apply contract_value_GitCommit. eauto using unmarshalGitCommit_is_int. }
  destruct (_ !! version_key repository) as [jv|]; [|done].
  destruct (unmarshalRepositoryVersion jv) as [rv|] eqn:Hrv; [|done].
  apply contract_store_insert; [done|].
  apply contract_value_PushTransaction. eauto using unmarshalRepositoryVersion_is_int.
Qed.

(** X15. Every value the contract puts is one of its three records
    with a number that fits an [int]. A store in which this holds of
    every key keeps that property under each mutating operation,
    whether the operation succeeds or fails. *)
Theorem contract_store_preserved (s : store) :
  contract_store s ->
  contract_store (InitLedger s).2
  /\ (forall now commitHash repository commitMessage author,
        contract_store (CreateGitCommit now commitHash repository commitMessage author s).2)
  /\ (forall rv, is_int (rVersionNumber rv) = true ->
        contract_store (SetRepositoryVersion rv s).2)
  /\ (forall repository, contract_store (IncrementVersionNumber repository s).2)
  /\ (forall now repository remoteURL commitHash,
        contract_store (HandleGitPush now repository remoteURL commitHash s).2).
Proof.
  intros Hs. split; [by apply contract_store_InitLedger|].
  split; [intros; by apply contract_store_Create|].
  split; [intros; by apply contract_store_Set|].
  split; [intros; by apply contract_store_Increment|].
  intros; by apply contract_store_Push.
Qed.

Lemma contract_store_preserved_witness :
  contract_store ledger0
  /\ contract_store
       (HandleGitPush "2023-06-03T10:00:00Z" "repo1" "http://x/repo1" "hash1" ledger0).2.
Proof.
  destruct (contract_store_preserved ∅ contract_store_empty) as (Hinit & _).
  split; [exact Hinit|].
  destruct (contract_store_preserved ledger0 Hinit) as (_ & _ & _ & _ & Hpush).
  apply Hpush.
Defined.



(** X17. A listing gives no partial result: one value that does not
    decode, anywhere in the store for [GetAllGitCommits] and under a
    key of the scanned interval for [GetAllPushTransactions], makes
    the whole call fail. *)
Theorem listing_fails_as_a_whole
    (sort_slice : (GitCommit -> GitCommit -> bool) -> list GitCommit -> list GitCommit)
    (s : store) k j :
  s !! k = Some j ->
  (unmarshalGitCommit j = None ->
   GetAllGitCommits sort_slice s = (inl EncodingFailure, s))
  /\ (unmarshalPushTransaction j = None ->
      in_range "PUSH_" "PUSH_~" k = true ->
      GetAllPushTransactions s = (inl EncodingFailure, s)).
Proof.
  intros Hkj. split.
  - intros Hdec. rewrite GetAllGitCommits_run.
    destruct (mapM _ _) as [l|] eqn:Hl; [|done].
    assert (is_Some (mapM (fun kv : string * value => unmarshalGitCommit kv.2)
                          (range_entries EmptyString EmptyString s))) as Hsome by eauto.
    apply mapM_is_Some_1 in Hsome. rewrite Forall_forall in Hsome.
    destruct (Hsome (k, j)) as [c Hc].
    { apply elem_of_range_entries. by rewrite in_range_unbounded. }
    change (unmarshalGitCommit j = Some c) in Hc. congruence.
  - intros Hdec Hr. unfold GetAllPushTransactions, bind, GetStateByRange, decode.
    destruct (mapM _ _) as [l|] eqn:Hl; [|done].
    assert (is_Some (mapM (fun kv : string * value => unmarshalPushTransaction kv.2)
                          (range_entries "PUSH_" "PUSH_~" s))) as Hsome by eauto.
    apply mapM_is_Some_1 in Hsome. rewrite Forall_forall in Hsome.
    destruct (Hsome (k, j)) as [c Hc].
    { by apply elem_of_range_entries. }
    change (unmarshalPushTransaction j = Some c) in Hc. congruence.
Qed.

Lemma listing_fails_as_a_whole_witness :
  GetAllGitCommits sort_ties_first (<["bad" := [("Timestamp", JNum 7)]]> ledger0)
  = (inl EncodingFailure, <["bad" := [("Timestamp", JNum 7)]]> ledger0).
Proof.
  apply (listing_fails_as_a_whole sort_ties_first _ "bad" [("Timestamp", JNum 7)]).
  - apply lookup_insert_eq.
  - vm_compute. reflexivity.
Defined.

(** X18. [GitCommitExists] answers false exactly when [ReadGitCommit]
    fails with [NotFound]; it answers true also for a value that
    [ReadGitCommit] cannot decode. *)
Theorem exists_agrees_with_read commitHash (s : store) :
  (GitCommitExists commitHash s = (inr false, s)
   <-> (ReadGitCommit commitHash s).1 = inl (NotFound commitHash))
  /\ (GitCommitExists commitHash s = (inr true, s)
      <-> is_Some (s !! commitHash)).
Proof.
  rewrite GitCommitExists_run, ReadGitCommit_run. cbn [fst].
  destruct (s !! commitHash) as [j|].
  - split; [|split; [by eexists|done]].
    destruct (unmarshalGitCommit j); split; intros; simplify_eq.
  - split; [done|]. split; [intros; simplify_eq|by intros [? ?]].
Qed.

(** X19. With the version record of [repository] in place, a push
    succeeds exactly when the hash is the version key of the
    repository or names a stored value that decodes to a commit of
    that repository. *)
Theorem push_succeeds_iff now repository remoteURL commitHash (s : store) v :
  (GetRepositoryVersion repository s).1 = inr (mkRepositoryVersion repository v) ->
  (exists s', HandleGitPush now repository remoteURL commitHash s
              = (inr (build_message remoteURL), s'))
  <-> (commitHash = version_key repository
       \/ exists jc c, s !! commitHash = Some jc /\ unmarshalGitCommit jc = Some c
                       /\ Repository c = repository).
Proof.
  intros Hv. rewrite HandleGitPush_run, (IncrementVersionNumber_named _ _ _ Hv).
  destruct (decide (commitHash = version_key repository)) as [->|Hne].
  - split; [by left|]. intros _. rewrite lookup_insert_eq.
    rewrite unmarshalGitCommit_RepositoryVersion by apply int_incr_is_int.
    cbn [Repository]. rewrite decide_True by done. cbn zeta.
    rewrite lookup_insert_eq.
    rewrite unmarshalRepositoryVersion_GitCommit by apply int_incr_is_int. eauto.
  - rewrite lookup_insert_ne by done. split.
    + intros [s' Hrun]. right.
      destruct (s !! commitHash) as [jc|]; [|done].
      destruct (unmarshalGitCommit jc) as [c|] eqn:Hc; [|done].
      case_decide; [|done]. eauto.
    + intros [?|(jc & c & -> & -> & Hrepo)]; [done|].
      rewrite decide_True by done. cbn zeta.
      rewrite lookup_insert_ne, lookup_insert_eq by done.
      rewrite unmarshal_marshal_RepositoryVersion by apply int_incr_is_int. eauto.
Qed.

Lemma push_succeeds_iff_witness :
  (exists s', HandleGitPush "2023-06-03T10:00:00Z" "repo2" "http://x/repo2" "hash2" ledger0
              = (inr (build_message "http://x/repo2"), s'))
  <-> ("hash2" = version_key "repo2"
       \/ exists jc c, ledger0 !! "hash2" = Some jc /\ unmarshalGitCommit jc = Some c
                       /\ Repository c = "repo2").
Proof.
  apply (push_succeeds_iff "2023-06-03T10:00:00Z" "repo2" "http://x/repo2" "hash2" ledger0 1).
  vm_compute. reflexivity.
Defined.

(** ** The client's view of a push transaction *)

(** X20. A push transaction as the chaincode encodes it decodes under
    the client's declaration to the same five fields: the tag of the
    commit hash differs in case only, and field names are matched up
    to case. The client's own encoding is read back by the chaincode's
    declaration in the same way. *)
Theorem client_reads_push_transaction p :
  is_int (pVersion p) = true ->
  clientUnmarshalPushTransaction (marshalPushTransaction p) = Some p
  /\ unmarshalPushTransaction (clientMarshalPushTransaction p) = Some p
  /\ clientMarshalPushTransaction p <> marshalPushTransaction p.
Proof.
  intros Hi. destruct p. cbn in Hi.
  unfold clientUnmarshalPushTransaction, unmarshalPushTransaction,
    marshalPushTransaction, clientMarshalPushTransaction. cbn.
  rewrite Hi. repeat split. discriminate.
Qed.

Lemma client_reads_push_transaction_witness :
  clientUnmarshalPushTransaction
    (marshalPushTransaction
       (mkPushTransaction "repo1" "http://x/repo1" "2023-06-03T10:00:00Z" 2 "hash1"))
  = Some (mkPushTransaction "repo1" "http://x/repo1" "2023-06-03T10:00:00Z" 2 "hash1").
Proof.
  apply (client_reads_push_transaction
           (mkPushTransaction "repo1" "http://x/repo1" "2023-06-03T10:00:00Z" 2 "hash1")).
  reflexivity.
Defined.

(** ** A push transaction used as a commit *)

(** X21. The key of a stored push transaction passes for a commit
    hash of its repository. A push naming it succeeds and puts the
    value back re-encoded as a commit, so the transaction loses its
    remote URL and its version: read as a push transaction, what is
    left has an empty URL and version 0. *)
Theorem push_overwrites_push_transaction now repository remoteURL commitHash (s : store) v p :
  (GetRepositoryVersion repository s).1 = inr (mkRepositoryVersion repository v) ->
  s !! commitHash = Some (marshalPushTransaction p) ->
  pRepository p = repository ->
  is_push_key commitHash = true ->
  commitHash <> push_key repository now ->
  exists s',
    HandleGitPush now repository remoteURL commitHash s = (inr (build_message remoteURL), s')
    /\ s' !! commitHash
       = Some (marshalGitCommit
                 (mkGitCommit (pCommitHash p) repository nil_string nil_string 0
                              (pTimestamp p)))
    /\ (forall j, s' !! commitHash = Some j ->
          unmarshalPushTransaction j
          = Some (mkPushTransaction repository nil_string (pTimestamp p) 0 (pCommitHash p))).
Proof.
  intros Hv Hp Hrepo Hpk Hnp.
  assert (Hne : commitHash <> version_key repository)
    by by apply is_push_key_not_version_key.
  assert (Hdec : unmarshalGitCommit (marshalPushTransaction p)
                 = Some (mkGitCommit (pCommitHash p) repository nil_string nil_string 0
                                     (pTimestamp p))).
  { destruct p. cbn in *. by subst. }
  rewrite HandleGitPush_run, (IncrementVersionNumber_named _ _ _ Hv).
  rewrite lookup_insert_ne, Hp, Hdec by done. cbn [Repository].
  rewrite decide_True by done. cbn zeta.
  rewrite lookup_insert_ne, lookup_insert_eq by done.
  rewrite unmarshal_marshal_RepositoryVersion by apply int_incr_is_int.
  eexists. split; [done|].
  rewrite lookup_insert_ne, lookup_insert_eq by done.
  split; [done|]. by intros j [= <-].
Qed.

Lemma push_overwrites_push_transaction_witness :
  let s := (HandleGitPush "2023-06-03T10:00:00Z" "repo1" "http://x/repo1" "hash1" ledger0).2 in
  exists s',
    HandleGitPush "2023-06-03T11:00:00Z" "repo1" "http://x/again"
      (push_key "repo1" "2023-06-03T10:00:00Z") s
    = (inr (build_message "http://x/again"), s')
    /\ s' !! push_key "repo1" "2023-06-03T10:00:00Z"
       = Some (marshalGitCommit
                 (mkGitCommit "hash1" "repo1" nil_string nil_string 0 "2023-06-03T10:00:00Z")).
Proof.
  cbn zeta.
  destruct (push_overwrites_push_transaction "2023-06-03T11:00:00Z" "repo1" "http://x/again"
              (push_key "repo1" "2023-06-03T10:00:00Z")
              (HandleGitPush "2023-06-03T10:00:00Z" "repo1" "http://x/repo1" "hash1" ledger0).2
              2
              (mkPushTransaction "repo1" "http://x/repo1" "2023-06-03T10:00:00Z" 2 "hash1"))
    as (s' & Hrun & Hkey & _).
  - vm_compute. reflexivity.
  - vm_compute. reflexivity.
  - reflexivity.
  - vm_compute. reflexivity.
  - vm_compute. discriminate.
  - exists s'. split; [exact Hrun|exact Hkey].
Defined.
